(** * go-utils: slice utilities and the array list

    A shallow embedding of the two Go packages of the repository,
    [utils] (slice.go) and [arraylist], together with the properties of
    their behaviour.  Go's [interface{}] values are an inductive type; an
    [int] that a caller supplies is a [Z], a counter that only steps up
    from 0 is a [nat]; a function that can panic returns an [outcome];
    a method of [*ArrayList] takes the list and returns the new one; and
    the slices that [Combination] allocates and writes live in a store. *)

From Stdlib Require Import ZArith String DecimalString Lia.
From stdpp Require Import list strings.

(** ** The Go values the packages handle *)

Module Go.

(** A value boxed in an [interface{}].  [VNil] is the nil interface;
    [VSlice] is a slice of any element type, seen through
    [reflect.Value.Index(i).Interface()]. *)
#[warnings="-register-all"]
Inductive value : Type :=
| VNil
| VBool (b : bool)
| VInt (n : Z)
| VString (s : string)
| VSlice (elems : list value).

Inductive Kind : Type :=
| reflect_Invalid | reflect_Bool | reflect_Int | reflect_String | reflect_Slice.

(** [reflect.ValueOf(v).Kind()]. *)
Definition Kind_of (v : value) : Kind :=
  match v with
  | VNil => reflect_Invalid
  | VBool _ => reflect_Bool
  | VInt _ => reflect_Int
  | VString _ => reflect_String
  | VSlice _ => reflect_Slice
  end.

Definition is_Slice (v : value) : bool :=
  match Kind_of v with reflect_Slice => true | _ => false end.

(** [reflect.DeepEqual] on these values: same kind and, recursively, same
    contents.  The properties below use it only through its result on
    the elements compared. *)
Fixpoint DeepEqual (x y : value) : bool :=
  match x, y with
  | VNil, VNil => true
  | VBool a, VBool b => Bool.eqb a b
  | VInt a, VInt b => Z.eqb a b
  | VString a, VString b => String.eqb a b
  | VSlice xs, VSlice ys =>
      (fix elems_eq (us vs : list value) {struct us} : bool :=
         match us, vs with
         | [], [] => true
         | u :: us', v :: vs' => DeepEqual u v && elems_eq us' vs'
         | _, _ => false
         end) xs ys
  | _, _ => false
  end.

(** The verb [%d] of [fmt.Sprintf] on an [int]. *)
Definition fmt_d (n : Z) : string := NilZero.string_of_int (Z.to_int n).

(** The verb [%v] of [fmt.Sprintf]. *)
Fixpoint fmt_v (v : value) : string :=
  match v with
  | VNil => "<nil>"
  | VBool true => "true"
  | VBool false => "false"
  | VInt n => fmt_d n
  | VString s => s
  | VSlice xs =>
      "[" +:+
      (fix join (us : list value) : string :=
         match us with
         | [] => ""
         | [u] => fmt_v u
         | u :: us' => fmt_v u +:+ " " +:+ join us'
         end) xs
      +:+ "]"
  end.

(** An [error]: one of the package-level variables of slice.go, or a
    value made on the spot by [errors.New]. *)
Inductive error : Type :=
| NotSliceErr
| NilMapFuncErr
| NilSelectFuncErr
| ElemNotFoundErr
| errors_New (msg : string).

(** The method [Error()]. *)
Definition Error (e : error) : string :=
  match e with
  | NotSliceErr => "collection value is not a Slice."
  | NilMapFuncErr => "map function is nil."
  | NilSelectFuncErr => "select function is nil."
  | ElemNotFoundErr => "element not found."
  | errors_New msg => msg
  end.

Inductive panic : Type := IndexOutOfRange | SliceBoundsOutOfRange.

(** What a call does: it returns, it panics, or the model ran out of
    fuel before the call was over. *)
Inductive outcome (A : Type) : Type :=
| Ret (a : A)
| Panic (p : panic)
| OutOfFuel.
Arguments Ret {A} a.
Arguments Panic {A} p.
Arguments OutOfFuel {A}.

#[global] Instance outcome_ret : MRet outcome := @Ret.

#[global] Instance outcome_bind : MBind outcome := fun A B k m =>
  match m with
  | Ret a => k a
  | Panic p => Panic p
  | OutOfFuel => OutOfFuel
  end.

Definition returns {A : Type} (m : outcome A) : Prop := exists a, m = Ret a.

(** [s[i]]. *)
Definition index (s : list value) (i : Z) : outcome value :=
  if (i <? 0)%Z then Panic IndexOutOfRange
  else match s !! Z.to_nat i with
       | Some v => Ret v
       | None => Panic IndexOutOfRange
       end.

(** [s[i] = v]. *)
Definition set_index (s : list value) (i : Z) (v : value) : outcome (list value) :=
  if (i <? 0)%Z || (Z.of_nat (length s) <=? i)%Z then Panic IndexOutOfRange
  else Ret (<[Z.to_nat i := v]> s).

(** [s[:hi]] and [s[lo:]], for a slice whose capacity is its length. *)
Definition slice_to (s : list value) (hi : Z) : outcome (list value) :=
  if (hi <? 0)%Z || (Z.of_nat (length s) <? hi)%Z then Panic SliceBoundsOutOfRange
  else Ret (take (Z.to_nat hi) s).

Definition slice_from (s : list value) (lo : Z) : outcome (list value) :=
  if (lo <? 0)%Z || (Z.of_nat (length s) <? lo)%Z then Panic SliceBoundsOutOfRange
  else Ret (drop (Z.to_nat lo) s).

End Go.

Import Go.

(** ** Package arraylist *)

Module arraylist.

(** The list is the contents of its one field.  Positions are [int]s;
    the package only compares them with the size and adds 1 to a position
    below the size, so no operation can overflow and [Z] stands for [int]
    as it is. *)
Record ArrayList : Type := { slice : list value }.

Definition New : ArrayList := {| slice := [] |}.

Definition Size (a : ArrayList) : Z := Z.of_nat (length (slice a)).

Definition indexOutOfRangeErr (pos listSize : Z) : error :=
  errors_New ("Index " +:+ fmt_d pos +:+ " is out of range from a list size of "
              +:+ fmt_d listSize).

Definition elementNotFoundErr (obj : value) : error :=
  errors_New (fmt_v obj +:+ " element was not found in this list.").

Definition checkRangeForAddAt (a : ArrayList) (pos : Z) : option error :=
  if (pos >? Size a)%Z || (pos <? 0)%Z
  then Some (indexOutOfRangeErr pos (Size a))
  else None.

Definition checkRange (a : ArrayList) (pos : Z) : option error :=
  if (pos >? Size a - 1)%Z || (pos <? 0)%Z
  then Some (indexOutOfRangeErr pos (Size a))
  else None.

Definition Add (a : ArrayList) (objs : list value) : ArrayList :=
  {| slice := slice a ++ objs |}.

Definition AddFirst (a : ArrayList) (objs : list value) : ArrayList :=
  {| slice := objs ++ slice a |}.

Definition addAt (a : ArrayList) (pos : Z) (elements : list value) : outcome ArrayList :=
  front ← slice_to (slice a) pos;
  back ← slice_from (slice a) pos;
  Ret {| slice := (([] ++ front) ++ elements) ++ back |}.

Definition AddAt (a : ArrayList) (pos : Z) (objs : list value)
  : outcome (ArrayList * option error) :=
  match checkRangeForAddAt a pos with
  | Some err => Ret (a, Some err)
  | None =>
      if (pos =? 0)%Z then Ret (AddFirst a objs, None)
      else if (pos =? Size a)%Z then Ret (Add a objs, None)
      else a' ← addAt a pos objs; Ret (a', None)
  end.

Definition Clear (a : ArrayList) : ArrayList := {| slice := [] |}.

Definition Get (a : ArrayList) (pos : Z) : outcome (value * option error) :=
  match checkRange a pos with
  | Some _ => Ret (VNil, Some (indexOutOfRangeErr pos (Size a)))
  | None => v ← index (slice a) pos; Ret (v, None)
  end.

(** The loop [for i, o := range a.slice] of [IndexOf], from index [i] on. *)
Fixpoint IndexOf_range (i : Z) (s : list value) (obj : value) : Z :=
  match s with
  | [] => (-1)%Z
  | o :: s' => if DeepEqual o obj then i else IndexOf_range (i + 1)%Z s' obj
  end.

Definition IndexOf (a : ArrayList) (obj : value) : Z :=
  IndexOf_range 0 (slice a) obj.

Definition IsEmpty (a : ArrayList) : bool := (Size a =? 0)%Z.

(** The loop [for i := a.Size() - 1; i > -1; i--] of [LastIndexOf];
    the argument is [i + 1]. *)
Fixpoint LastIndexOf_down (n : nat) (s : list value) (obj : value) : outcome Z :=
  match n with
  | O => Ret (-1)%Z
  | S i =>
      o ← index s (Z.of_nat i);
      if DeepEqual o obj then Ret (Z.of_nat i) else LastIndexOf_down i s obj
  end.

Definition LastIndexOf (a : ArrayList) (obj : value) : outcome Z :=
  LastIndexOf_down (Z.to_nat (Size a)) (slice a) obj.

Definition RemoveAt (a : ArrayList) (pos : Z) : outcome (ArrayList * option error) :=
  match checkRange a pos with
  | Some err => Ret (a, Some err)
  | None =>
      s1 ← set_index (slice a) pos VNil;
      front ← slice_to s1 pos;
      back ← slice_from s1 (pos + 1);
      Ret ({| slice := front ++ back |}, None)
  end.

(** The loop [for i, o := range a.slice] of [Remove], from index [i] on. *)
Fixpoint Remove_range (a : ArrayList) (i : Z) (s : list value) (obj : value)
  : outcome (ArrayList * option error) :=
  match s with
  | [] => Ret (a, Some (elementNotFoundErr obj))
  | o :: s' => if DeepEqual o obj then RemoveAt a i else Remove_range a (i + 1)%Z s' obj
  end.

Definition Remove (a : ArrayList) (obj : value) : outcome (ArrayList * option error) :=
  Remove_range a 0 (slice a) obj.

Definition Slice (a : ArrayList) : list value := [] ++ slice a.

End arraylist.

(** ** Package utils (slice.go) *)

Module utils.

(** [MapFunc] and [SelectFunc]; a nil function value is [None]. *)
Definition MapFunc : Type := value -> value.
Definition SelectFunc : Type := value -> bool.

(** The elements [Index(0)], ..., [Index(Len()-1)] of a slice value. *)
Definition elems_of (v : value) : list value :=
  match v with
  | VSlice elems => elems
  | _ => []
  end.

Definition Map (collection : value) (mapFunc : option MapFunc)
  : list value * option error :=
  if negb (is_Slice collection) then ([], Some NotSliceErr)
  else match mapFunc with
       | None => ([], Some NilMapFuncErr)
       | Some f => (f <$> elems_of collection, None)
       end.

Definition Select (collection : value) (selectFunc : option SelectFunc)
  : list value * option error :=
  if negb (is_Slice collection) then ([], Some NotSliceErr)
  else match selectFunc with
       | None => ([], Some NilSelectFuncErr)
       | Some f => (List.filter f (elems_of collection), None)
       end.

(** [item != nil] for an element read with [Index(i).Interface()]. *)
Definition is_nil (item : value) : bool :=
  match item with
  | VNil => true
  | _ => false
  end.

(** The loop of [Compact] over the elements that are left; [compact] is
    the slice appended to so far. *)
Fixpoint Compact_loop (elems : list value) (compact : list value) : list value :=
  match elems with
  | [] => compact
  | item :: elems' =>
      if negb (is_nil item) then Compact_loop elems' (compact ++ [item])
      else Compact_loop elems' compact
  end.

Definition Compact (collection : value) : list value * option error :=
  if negb (is_Slice collection) then ([], Some NotSliceErr)
  else (Compact_loop (elems_of collection) [], None).

(** The loop of [IsIncluded] over the elements that are left. *)
Fixpoint IsIncluded_loop (elems : list value) (obj : value) : bool * option error :=
  match elems with
  | [] => (false, Some ElemNotFoundErr)
  | item :: elems' =>
      if DeepEqual item obj then (true, None) else IsIncluded_loop elems' obj
  end.

Definition IsIncluded (collection obj : value) : bool * option error :=
  if negb (is_Slice collection) then (false, Some NotSliceErr)
  else IsIncluded_loop (elems_of collection) obj.

(** *** The store of [Combination]

    [singleCombination] is one backing array that every level of the
    recursion writes into, and each combination appended to the result is
    a slice of its own.  A slice of [interface{}] is therefore a location
    in a store of backing arrays; a location never allocated reads as the
    nil slice. *)
Abbreviation loc := nat (only parsing).
Abbreviation heap := (list (list value)) (only parsing).

Definition cells (h : heap) (l : loc) : list value := h !!! l.

(** [make([]interface{}, n)]. *)
Definition make (n : nat) (h : heap) : loc * heap :=
  (length h, h ++ [replicate n VNil]).

(** [s[i] = v] for the slice at [l]. *)
Definition store (l : loc) (i : nat) (v : value) (h : heap) : outcome heap :=
  if decide (i < length (cells h l))
  then Ret (<[l := <[i := v]> (cells h l)]> h)
  else Panic IndexOutOfRange.

(** [append([]interface{}{}, s...)] for the slice at [l]. *)
Definition copy (l : loc) (h : heap) : loc * heap :=
  (length h, h ++ [cells h l]).

(** What [combination] leaves behind: the store, [*combinations] and the
    returned error. *)
Abbreviation combination_result :=
  (heap * list loc * option error)%type (only parsing).

Section combination_loop.
(** The recursive call [combination(singleCombination, combinations,
    nextLevel, slicesValue)]. *)
Variable recur : loc -> list loc -> nat -> list value -> heap -> outcome combination_result.
Variables (singleCombination : loc) (depthLevel : nat) (slicesValue : list value).

(** The loop [for i := 0; i < sliceValue.Len(); i++], over the elements
    that are left.  The error of the recursive call is dropped, as in
    the source. *)
Fixpoint combination_loop (elems : list value) (combinations : list loc) (h : heap)
  : outcome combination_result :=
  match elems with
  | [] => Ret (h, combinations, None)
  | e :: elems' =>
      h1 ← store singleCombination depthLevel e h;
      if decide (depthLevel + 1 < length slicesValue) then
        '(h2, combinations2, _) ← recur singleCombination combinations
                                     (depthLevel + 1) slicesValue h1;
        combination_loop elems' combinations2 h2
      else
        let '(c, h2) := copy singleCombination h1 in
        combination_loop elems' (combinations ++ [c]) h2
  end.
End combination_loop.

Fixpoint combination (fuel : nat) (singleCombination : loc) (combinations : list loc)
    (depthLevel : nat) (slicesValue : list value) (h : heap)
  : outcome combination_result :=
  match fuel with
  | O => OutOfFuel
  | S fuel' =>
      slice ← index slicesValue (Z.of_nat depthLevel);
      if negb (is_Slice slice) then Ret (h, combinations, Some NotSliceErr)
      else combination_loop (combination fuel') singleCombination depthLevel
             slicesValue (elems_of slice) combinations h
  end.

(** [Combination] down to the store.  [slices] is the variadic parameter,
    a [[]interface{}], so its kind is always Slice and the first return
    of the source cannot be taken.  The recursion is at most as deep as
    there are slices. *)
Definition Combination_store (slices : list value) : outcome combination_result :=
  let combinations := [] in
  let '(singleCombination, h) := make (length slices) [] in
  combination (S (length slices)) singleCombination combinations 0 slices h.

(** [Combination] as its caller sees it: every combination read from the
    store. *)
Definition Combination (slices : list value) : outcome (list value * option error) :=
  '(h, combinations, err) ← Combination_store slices;
  Ret ((fun c => VSlice (cells h c)) <$> (combinations : list loc), err).

End utils.

(** ** What the properties are stated with *)

Module spec.
Import arraylist utils.

(** The message of [indexOutOfRangeErr] and of [elementNotFoundErr], as
    the format strings spell them. *)
Definition index_message (pos size : Z) : string :=
  "Index " +:+ fmt_d pos +:+ " is out of range from a list size of " +:+ fmt_d size.

Definition not_found_message (obj : value) : string :=
  fmt_v obj +:+ " element was not found in this list.".

(** A slice of [int]s. *)
Definition ints (ns : list Z) : list value := VInt <$> ns.

(** The Cartesian product of a list of lists, the first list varying
    slowest. *)
Fixpoint product (ls : list (list value)) : list (list value) :=
  match ls with
  | [] => [[]]
  | l :: ls' => a ← l; (cons a) <$> product ls'
  end.

(** The pairs of two lists, the first varying slowest. *)
Definition pairs (A B : list value) : list (list value) :=
  a ← A; (fun b => [a; b]) <$> B.

(** The number of combinations of a list of lists. *)
Definition product_size (ls : list (list value)) : nat :=
  foldr (fun l n => length l * n) 1 ls.

(** No element of [s] is [DeepEqual] to [obj]. *)
Definition absent (obj : value) (s : list value) : Prop :=
  Forall (fun o => DeepEqual o obj = false) s.

(** The element at index [k] of [s] is [DeepEqual] to [obj]. *)
Definition match_at (obj : value) (s : list value) (k : nat) : Prop :=
  exists o, s !! k = Some o /\ DeepEqual o obj = true.

(** The store of a run over [n] slices is in order: every slice in it
    has [n] cells, the working buffer at [bl] is one of them, and so is
    every combination collected. *)
Definition store_ok (n bl : nat) (h : list (list value)) (combs : list nat) : Prop :=
  Forall (fun c => length c = n) h /\ bl < length h /\ Forall (fun l => l < length h) combs.

(** [run] is one level of the recursion over [n] slices, on a slice
    ([is_slice]) or on something else: from a store in order it returns,
    leaves the store in order, and reports [NotSliceErr], touching
    nothing, exactly when the level is not on a slice. *)
Definition level_safe (n bl : nat) (is_slice : bool)
    (run : list nat -> list (list value) ->
           outcome (list (list value) * list nat * option error))
  : Prop :=
  forall combs h,
    store_ok n bl h combs ->
    exists h' combs',
      run combs h = Ret (h', combs', if is_slice then None else Some NotSliceErr)
      /\ store_ok n bl h' combs'
      /\ (is_slice = false -> h' = h /\ combs' = combs).

(** The result of a run that started in the store [h] with [combs]
    collected, left [buf'] in the working buffer at [bl], and appended
    one fresh slice [prefix ++ t] for every [t] of [tuples]. *)
Definition collected (bl : nat) (h : list (list value)) (buf' prefix : list value)
    (tuples : list (list value)) (combs : list nat)
  : outcome (list (list value) * list nat * option error) :=
  Ret (<[bl := buf']> h ++ (app prefix <$> tuples),
       combs ++ seq (length h) (length tuples),
       None).

(** [run] behaves as one level of the recursion at depth [d] should: from
    any store whose working buffer [buf] has one cell per slice, it
    collects [tuples] under the first [d] cells of [buf] and leaves those
    cells as they were. *)
Definition level_spec (ls : list (list value)) (bl d : nat) (tuples : list (list value))
    (run : list nat -> list (list value) ->
           outcome (list (list value) * list nat * option error))
  : Prop :=
  forall combs h buf,
    h !! bl = Some buf -> length buf = length ls ->
    exists buf',
      run combs h = collected bl h buf' (take d buf) tuples combs
      /\ take d buf' = take d buf /\ length buf' = length ls.

End spec.

(** ** Indexing and slicing inside the bounds *)

Module Go_facts.

Lemma slice_to_inside (s : list value) (hi : Z) :
  (0 <= hi <= Z.of_nat (length s))%Z -> slice_to s hi = Ret (take (Z.to_nat hi) s).
Proof.
  intros H. unfold slice_to.
  destruct (hi <? 0)%Z eqn:H1; [lia|].
  destruct (Z.of_nat (length s) <? hi)%Z eqn:H2; [lia|]. reflexivity.
Qed.

Lemma slice_from_inside (s : list value) (lo : Z) :
  (0 <= lo <= Z.of_nat (length s))%Z -> slice_from s lo = Ret (drop (Z.to_nat lo) s).
Proof.
  intros H. unfold slice_from.
  destruct (lo <? 0)%Z eqn:H1; [lia|].
  destruct (Z.of_nat (length s) <? lo)%Z eqn:H2; [lia|]. reflexivity.
Qed.

Lemma set_index_inside (s : list value) (i : Z) (v : value) :
  (0 <= i < Z.of_nat (length s))%Z -> set_index s i v = Ret (<[Z.to_nat i := v]> s).
Proof.
  intros H. unfold set_index.
  destruct (i <? 0)%Z eqn:H1; [lia|].
  destruct (Z.of_nat (length s) <=? i)%Z eqn:H2; [lia|]. reflexivity.
Qed.

Lemma index_inside (s : list value) (i : nat) (v : value) :
  s !! i = Some v -> index s (Z.of_nat i) = Ret v.
Proof.
  intros H. unfold index.
  destruct (Z.ltb_spec (Z.of_nat i) 0); [lia|].
  rewrite Nat2Z.id, H. reflexivity.
Qed.

End Go_facts.

(** ** Properties of package arraylist *)

Module arraylist_facts.
Import arraylist spec Go_facts.

(** The bounds checks, by cases on the position. *)
Lemma checkRange_inside (a : ArrayList) (pos : Z) :
  (0 <= pos < Size a)%Z -> checkRange a pos = None.
Proof.
  intros Hpos. unfold checkRange.
  destruct (pos >? Size a - 1)%Z eqn:Hgt; [lia|].
  destruct (pos <? 0)%Z eqn:Hlt; [lia|]. reflexivity.
Qed.

Lemma checkRange_outside (a : ArrayList) (pos : Z) :
  ~ (0 <= pos < Size a)%Z ->
  checkRange a pos = Some (indexOutOfRangeErr pos (Size a)).
Proof.
  intros Hpos. unfold checkRange.
  destruct (pos >? Size a - 1)%Z eqn:Hgt; [reflexivity|].
  destruct (pos <? 0)%Z eqn:Hlt; [reflexivity|]. lia.
Qed.

Lemma checkRange_cases (a : ArrayList) (pos : Z) :
  (checkRange a pos = None /\ (0 <= pos < Size a)%Z) \/
  (checkRange a pos = Some (indexOutOfRangeErr pos (Size a)) /\ ~ (0 <= pos < Size a)%Z).
Proof.
  destruct (decide (0 <= pos < Size a)%Z) as [Hin|Hout].
  - left. split; [apply checkRange_inside|]; assumption.
  - right. split; [apply checkRange_outside|]; assumption.
Qed.

Lemma checkRangeForAddAt_cases (a : ArrayList) (pos : Z) :
  (checkRangeForAddAt a pos = None /\ (0 <= pos <= Size a)%Z) \/
  (checkRangeForAddAt a pos = Some (indexOutOfRangeErr pos (Size a))
   /\ ~ (0 <= pos <= Size a)%Z).
Proof.
  unfold checkRangeForAddAt.
  destruct (pos >? Size a)%Z eqn:Hgt; [right; split; [reflexivity|lia]|].
  destruct (pos <? 0)%Z eqn:Hlt; [right; split; [reflexivity|lia]|].
  left. split; [reflexivity|lia].
Qed.

Lemma addAt_inside (a : ArrayList) (pos : Z) (elements : list value) :
  (0 <= pos <= Size a)%Z ->
  addAt a pos elements =
  Ret {| slice := take (Z.to_nat pos) (slice a) ++ elements ++ drop (Z.to_nat pos) (slice a) |}.
Proof.
  intros H. unfold addAt, Size in *.
  rewrite slice_to_inside, slice_from_inside by assumption. simpl.
  rewrite <- app_assoc. reflexivity.
Qed.

(** Inside the bounds [RemoveAt] deletes one position and nothing else:
    the nil written first sits in the cell that the append then drops. *)
Lemma RemoveAt_inside (a : ArrayList) (pos : Z) :
  (0 <= pos < Size a)%Z ->
  RemoveAt a pos =
  Ret ({| slice := take (Z.to_nat pos) (slice a) ++ drop (S (Z.to_nat pos)) (slice a) |},
       None).
Proof.
  intros H. unfold RemoveAt. rewrite checkRange_inside by assumption.
  unfold Size in H.
  rewrite set_index_inside by assumption. simpl.
  rewrite slice_to_inside by (rewrite length_insert; lia). simpl.
  rewrite slice_from_inside by (rewrite length_insert; lia). simpl.
  rewrite take_insert_ge by lia.
  replace (Z.to_nat (pos + 1)) with (S (Z.to_nat pos)) by lia.
  rewrite drop_insert_lt by lia. reflexivity.
Qed.

Lemma RemoveAt_outside (a : ArrayList) (pos : Z) :
  ~ (0 <= pos < Size a)%Z ->
  RemoveAt a pos = Ret (a, Some (indexOutOfRangeErr pos (Size a))).
Proof.
  intros H. unfold RemoveAt. rewrite checkRange_outside by assumption. reflexivity.
Qed.

(** The scan of [Remove], started at index [length front] with [front]
    already passed. *)
Lemma Remove_range_found (a : ArrayList) (obj : value) (passed front : list value)
    (x : value) (back : list value) :
  slice a = passed ++ front ++ x :: back ->
  Forall (fun o => DeepEqual o obj = false) front ->
  DeepEqual x obj = true ->
  Remove_range a (Z.of_nat (length passed)) (front ++ x :: back) obj =
  Ret ({| slice := passed ++ front ++ back |}, None).
Proof.
  revert passed. induction front as [|o front IH]; intros passed Hs Hfront Hx; simpl.
  - rewrite Hx. rewrite RemoveAt_inside.
    + rewrite Nat2Z.id, Hs. simpl.
      rewrite <- delete_take_drop, delete_middle. reflexivity.
    + unfold Size. rewrite Hs, length_app. simpl. lia.
  - inversion Hfront as [|? ? Ho Hrest]; subst. rewrite Ho.
    replace (Z.of_nat (length passed) + 1)%Z with (Z.of_nat (length (passed ++ [o])))
      by (rewrite length_app; simpl; lia).
    rewrite (IH (passed ++ [o])).
    + rewrite <- app_assoc. reflexivity.
    + rewrite Hs, <- app_assoc. reflexivity.
    + assumption.
    + assumption.
Qed.

Lemma Remove_range_absent (a : ArrayList) (obj : value) (i : Z) (s : list value) :
  Forall (fun o => DeepEqual o obj = false) s ->
  Remove_range a i s obj = Ret (a, Some (elementNotFoundErr obj)).
Proof.
  intros Hs. revert i. induction Hs as [|o s Ho Hs IH]; intros i; simpl.
  - reflexivity.
  - rewrite Ho. apply IH.
Qed.

Lemma Remove_found (a : ArrayList) (obj : value) (front : list value) (x : value)
    (back : list value) :
  slice a = front ++ x :: back ->
  Forall (fun o => DeepEqual o obj = false) front ->
  DeepEqual x obj = true ->
  Remove a obj = Ret ({| slice := front ++ back |}, None).
Proof.
  intros Hs Hfront Hx. unfold Remove. rewrite Hs.
  exact (Remove_range_found a obj [] front x back Hs Hfront Hx).
Qed.

(** A list either has a first element equal to [obj] or has none. *)
Lemma first_occurrence (obj : value) (s : list value) :
  Forall (fun o => DeepEqual o obj = false) s \/
  exists front x back,
    s = front ++ x :: back /\
    Forall (fun o => DeepEqual o obj = false) front /\
    DeepEqual x obj = true.
Proof.
  induction s as [|o s IH].
  - left. constructor.
  - destruct (DeepEqual o obj) eqn:Ho.
    + right. exists [], o, s. repeat split; [constructor | assumption].
    + destruct IH as [Hnone | (front & x & back & -> & Hfront & Hx)].
      * left. constructor; assumption.
      * right. exists (o :: front), x, back. repeat split; [|assumption].
        constructor; assumption.
Qed.

(** C5.  [AddAt], [RemoveAt] and [Remove] always return, and a call that
    returns an error returns the list it was given: the element sequence
    after the call is the one before it. *)
Theorem failing_call_keeps_the_list (a : ArrayList) (pos : Z) (objs : list value)
    (obj : value) :
  (exists a' err, AddAt a pos objs = Ret (a', err) /\ (is_Some err -> slice a' = slice a)) /\
  (exists a' err, RemoveAt a pos = Ret (a', err) /\ (is_Some err -> slice a' = slice a)) /\
  (exists a' err, Remove a obj = Ret (a', err) /\ (is_Some err -> slice a' = slice a)).
Proof.
  split; [|split].
  - unfold AddAt.
    destruct (checkRangeForAddAt_cases a pos) as [[-> Hin] | [-> Hout]].
    + destruct (pos =? 0)%Z; [|destruct (pos =? Size a)%Z].
      * eexists _, None. split; [reflexivity|]. intros [? [=]].
      * eexists _, None. split; [reflexivity|]. intros [? [=]].
      * rewrite addAt_inside by assumption. simpl.
        eexists _, None. split; [reflexivity|]. intros [? [=]].
    + eexists a, _. split; [reflexivity|]. reflexivity.
  - destruct (decide (0 <= pos < Size a)%Z) as [Hin | Hout].
    + rewrite RemoveAt_inside by assumption.
      eexists _, None. split; [reflexivity|]. intros [? [=]].
    + rewrite RemoveAt_outside by assumption.
      eexists a, _. split; [reflexivity|]. reflexivity.
  - destruct (first_occurrence obj (slice a))
      as [Hnone | (front & x & back & Hs & Hfront & Hx)].
    + unfold Remove. rewrite Remove_range_absent by assumption.
      eexists a, _. split; [reflexivity|]. reflexivity.
    + rewrite (Remove_found a obj front x back Hs Hfront Hx).
      eexists _, None. split; [reflexivity|]. intros [? [=]].
Qed.


(** C7.  [Remove] deletes the first element that [DeepEqual] equates with
    the target and keeps every other element in place, later equal ones
    included; when no element is equal it returns the element-not-found
    error and the list as it was. *)
Theorem Remove_deletes_first_occurrence (a : ArrayList) (target : value) :
  (forall front x back,
      slice a = front ++ x :: back ->
      Forall (fun o => DeepEqual o target = false) front ->
      DeepEqual x target = true ->
      Remove a target = Ret ({| slice := front ++ back |}, None)) /\
  (Forall (fun o => DeepEqual o target = false) (slice a) ->
   Remove a target = Ret (a, Some (elementNotFoundErr target))).
Proof.
  split.
  - intros front x back. apply Remove_found.
  - intros Hnone. unfold Remove. apply Remove_range_absent. assumption.
Qed.

Lemma Remove_deletes_first_occurrence_witness :
  Remove {| slice := [VInt 1; VInt 2; VInt 3; VInt 2] |} (VInt 2)
    = Ret ({| slice := [VInt 1] ++ [VInt 3; VInt 2] |}, None) /\
  Remove {| slice := [VInt 1; VInt 3] |} (VInt 2)
    = Ret ({| slice := [VInt 1; VInt 3] |}, Some (elementNotFoundErr (VInt 2))).
Proof.
  split.
  - apply (proj1 (Remove_deletes_first_occurrence
                    {| slice := [VInt 1; VInt 2; VInt 3; VInt 2] |} (VInt 2))
             [VInt 1] (VInt 2) [VInt 3; VInt 2]).
    + reflexivity.
    + repeat constructor.
    + reflexivity.
  - apply (proj2 (Remove_deletes_first_occurrence
                    {| slice := [VInt 1; VInt 3] |} (VInt 2))).
    repeat constructor.
Defined.

(** C8.  Whatever error [AddAt], [Get] or [RemoveAt] returns carries the
    position it was called with and the size of the list in its message;
    whatever error [Remove] returns carries the rendering of the target;
    [Get] at position 5 of a list of three elements returns the error
    whose message names 5 and 3. *)
Theorem list_errors_embed_operands (a : ArrayList) (pos : Z) (objs : list value)
    (obj : value) :
  (forall a' e, AddAt a pos objs = Ret (a', Some e) ->
                Error e = index_message pos (Size a)) /\
  (forall v e, Get a pos = Ret (v, Some e) -> Error e = index_message pos (Size a)) /\
  (forall a' e, RemoveAt a pos = Ret (a', Some e) ->
                Error e = index_message pos (Size a)) /\
  (forall a' e, Remove a obj = Ret (a', Some e) -> Error e = not_found_message obj) /\
  (forall x y z, exists e,
      Get {| slice := [x; y; z] |} 5 = Ret (VNil, Some e) /\
      Error e = "Index 5 is out of range from a list size of 3").
Proof.
  split; [|split; [|split; [|split]]].
  - intros a' e. unfold AddAt.
    destruct (checkRangeForAddAt_cases a pos) as [[-> Hin] | [-> Hout]].
    + destruct (pos =? 0)%Z; [|destruct (pos =? Size a)%Z].
      * intros [=].
      * intros [=].
      * rewrite addAt_inside by assumption. intros [=].
    + intros [= _ <-]. reflexivity.
  - intros v e. unfold Get.
    destruct (checkRange_cases a pos) as [[-> Hin] | [-> Hout]].
    + destruct (index (slice a) pos); intros [=].
    + intros [= _ <-]. reflexivity.
  - intros a' e.
    destruct (decide (0 <= pos < Size a)%Z) as [Hin | Hout].
    + rewrite RemoveAt_inside by assumption. intros [=].
    + rewrite RemoveAt_outside by assumption. intros [= _ <-]. reflexivity.
  - intros a' e.
    destruct (first_occurrence obj (slice a))
      as [Hnone | (front & x & back & Hs & Hfront & Hx)].
    + unfold Remove. rewrite Remove_range_absent by assumption.
      intros [= _ <-]. reflexivity.
    + rewrite (Remove_found a obj front x back Hs Hfront Hx). intros [=].
  - intros x y z. eexists. split; reflexivity.
Qed.

Lemma list_errors_embed_operands_witness :
  Error (indexOutOfRangeErr 7 3) = "Index 7 is out of range from a list size of 3" /\
  Error (elementNotFoundErr (VString "go")) = "go element was not found in this list.".
Proof.
  pose (a := {| slice := [VInt 1; VInt 2; VInt 3] |}).
  pose proof (list_errors_embed_operands a 7 [VNil] (VString "go"))
    as (HAddAt & _ & _ & HRemove & _).
  split.
  - exact (HAddAt a (indexOutOfRangeErr 7 3) eq_refl).
  - exact (HRemove a (elementNotFoundErr (VString "go")) eq_refl).
Defined.

(** The forward scan of [IndexOf]. *)
Lemma IndexOf_range_absent (obj : value) (i : Z) (s : list value) :
  Forall (fun o => DeepEqual o obj = false) s -> IndexOf_range i s obj = (-1)%Z.
Proof.
  intros Hs. revert i. induction Hs as [|o s Ho Hs IH]; intros i; simpl.
  - reflexivity.
  - rewrite Ho. apply IH.
Qed.

Lemma IndexOf_range_found (obj : value) (i : Z) (front : list value) (x : value)
    (back : list value) :
  Forall (fun o => DeepEqual o obj = false) front ->
  DeepEqual x obj = true ->
  IndexOf_range i (front ++ x :: back) obj = (i + Z.of_nat (length front))%Z.
Proof.
  intros Hfront Hx. revert i.
  induction Hfront as [|o front Ho Hfront IH]; intros i; simpl.
  - rewrite Hx. lia.
  - rewrite Ho, IH. lia.
Qed.

(** The backward scan of [LastIndexOf], from index [n - 1] down: it
    returns, and what it returns is the last index below [n] whose
    element equals the target, or -1 when there is none. *)
Lemma LastIndexOf_down_spec (obj : value) (s : list value) (n : nat) :
  n <= length s ->
  exists j, LastIndexOf_down n s obj = Ret j /\
    ((j = (-1)%Z /\
      forall k o, k < n -> s !! k = Some o -> DeepEqual o obj = false) \/
     (exists k o, j = Z.of_nat k /\ k < n /\ s !! k = Some o /\
        DeepEqual o obj = true /\
        forall k' o', k < k' < n -> s !! k' = Some o' -> DeepEqual o' obj = false)).
Proof.
  induction n as [|i IH]; intros Hn; simpl.
  - exists (-1)%Z. split; [reflexivity|]. left. split; [reflexivity|]. lia.
  - destruct (lookup_lt_is_Some_2 s i) as [o Ho]; [lia|].
    rewrite (index_inside s i o Ho). simpl.
    destruct (DeepEqual o obj) eqn:Heq.
    + exists (Z.of_nat i). split; [reflexivity|]. right.
      exists i, o. repeat split; try assumption; lia.
    + destruct IH as (j & Hj & Hspec); [lia|].
      exists j. split; [assumption|].
      destruct Hspec as [[-> Hnone] | (k & o' & -> & Hk & Hlook & Hmatch & Hafter)].
      * left. split; [reflexivity|]. intros k o' Hk Hlook.
        destruct (decide (k = i)) as [->|Hne].
        -- congruence.
        -- apply (Hnone k o'); [lia | assumption].
      * right. exists k, o'. repeat split; try assumption; [lia|].
        intros k' o'' Hk' Hlook'.
        destruct (decide (k' = i)) as [->|Hne].
        -- congruence.
        -- apply (Hafter k' o''); [lia | assumption].
Qed.

(** C10.  [LastIndexOf] returns; it returns -1 exactly when [IndexOf]
    does; when neither is negative [IndexOf] is the smaller one; and each
    index that is not negative is the place of an element that
    [DeepEqual] equates with the target. *)
Theorem IndexOf_below_LastIndexOf (a : ArrayList) (target : value) :
  exists j, LastIndexOf a target = Ret j /\
    (IndexOf a target = (-1)%Z <-> j = (-1)%Z) /\
    ((0 <= IndexOf a target)%Z -> (0 <= j)%Z -> (IndexOf a target <= j)%Z) /\
    (forall i, (0 <= i)%Z -> i = IndexOf a target \/ i = j ->
       exists o, slice a !! Z.to_nat i = Some o /\ DeepEqual o target = true).
Proof.
  unfold LastIndexOf, IndexOf, Size. rewrite Nat2Z.id.
  destruct (LastIndexOf_down_spec target (slice a) (length (slice a)))
    as (j & Hj & Hlast); [lia|].
  exists j. split; [assumption|].
  destruct (first_occurrence target (slice a))
    as [Hnone | (front & x & back & Hs & Hfront & Hx)].
  - rewrite IndexOf_range_absent by assumption.
    assert (Hj1 : j = (-1)%Z).
    { destruct Hlast as [[-> _] | (k & o & -> & Hk & Hlook & Hmatch & _)];
        [reflexivity|].
      rewrite Forall_lookup in Hnone. specialize (Hnone k o Hlook). simpl in Hnone.
      congruence. }
    subst j. split; [tauto|]. split; [lia|].
    intros i Hi [-> | ->]; lia.
  - assert (Hidx : IndexOf_range 0 (slice a) target = Z.of_nat (length front)).
    { rewrite Hs, IndexOf_range_found by assumption. lia. }
    rewrite Hidx.
    assert (Hx' : slice a !! length front = Some x).
    { rewrite Hs. apply list_lookup_middle. reflexivity. }
    assert (Hfl : length front < length (slice a)).
    { rewrite Hs, length_app. simpl. lia. }
    destruct Hlast as [[-> Hall] | (k & o & -> & Hk & Hlook & Hmatch & Hafter)].
    + specialize (Hall (length front) x Hfl Hx'). congruence.
    + assert (Hle : length front <= k).
      { destruct (decide (length front <= k)) as [|Hgt]; [assumption|].
        specialize (Hafter (length front) x). rewrite Hafter in Hx; [discriminate| lia |assumption]. }
      split; [lia|]. split; [lia|].
      intros i Hi [-> | ->].
      * exists x. rewrite Nat2Z.id. split; assumption.
      * exists o. rewrite Nat2Z.id. split; assumption.
Qed.

End arraylist_facts.

(** ** Properties of package utils *)

Module utils_facts.
Import utils spec Go_facts.

Lemma store_inside (h : list (list value)) (l i : nat) (v : value) (buf : list value) :
  h !! l = Some buf -> i < length buf ->
  store l i v h = Ret (<[l := <[i := v]> buf]> h).
Proof.
  intros Hl Hi. unfold store, cells.
  rewrite (list_lookup_total_correct h l buf Hl).
  destruct (decide (i < length buf)); [reflexivity | lia].
Qed.

Lemma take_prefix_eq (l1 l2 : list value) (n m : nat) :
  n <= m -> take m l1 = take m l2 -> take n l1 = take n l2.
Proof.
  intros Hnm Heq.
  assert (Hcut : forall l : list value, take n l = take n (take m l)).
  { intros l. rewrite take_take. f_equal. lia. }
  rewrite (Hcut l1), (Hcut l2), Heq. reflexivity.
Qed.

Lemma take_insert_snoc (buf : list value) (d : nat) (e : value) :
  d < length buf -> take (d + 1) (<[d := e]> buf) = take d buf ++ [e].
Proof.
  intros Hd. rewrite insert_take_drop by assumption.
  rewrite take_app_ge by (rewrite length_take; lia).
  rewrite length_take. replace (d + 1 - d `min` length buf) with 1 by lia.
  reflexivity.
Qed.

(** One round of the loop, seen from the store: the tuples [P] that the
    round added under the prefix extended by [e] are the tuples
    [cons e <$> P] under the prefix itself. *)
Lemma collected_round (bl : nat) (h : list (list value)) (buf1 buf2 buf3 prefix : list value)
    (e : value) (P Q : list (list value)) (combs : list nat) :
  bl < length h ->
  collected bl (<[bl := buf2]> (<[bl := buf1]> h) ++ (app (prefix ++ [e]) <$> P))
            buf3 prefix Q (combs ++ seq (length h) (length P))
  = collected bl h buf3 prefix ((cons e <$> P) ++ Q) combs.
Proof.
  intros Hbl.
  assert (Hheap :
    <[bl := buf3]> (<[bl := buf2]> (<[bl := buf1]> h) ++ (app (prefix ++ [e]) <$> P))
      ++ (app prefix <$> Q)
    = <[bl := buf3]> h ++ (app prefix <$> (cons e <$> P) ++ Q)).
  { rewrite insert_app_l by (rewrite !length_insert; assumption).
    rewrite !list_insert_insert_eq.
    rewrite fmap_app, <- list_fmap_compose, <- app_assoc.
    apply (f_equal (app (<[bl := buf3]> h))), (f_equal (fun X => X ++ (app prefix <$> Q))).
    apply list_fmap_ext. intros _ t _. simpl.
    rewrite <- app_assoc. reflexivity. }
  assert (Hlocs :
    (combs ++ seq (length h) (length P))
      ++ seq (length (<[bl := buf2]> (<[bl := buf1]> h) ++ (app (prefix ++ [e]) <$> P)))
             (length Q)
    = combs ++ seq (length h) (length ((cons e <$> P) ++ Q))).
  { rewrite !length_app, !length_fmap, !length_insert.
    rewrite seq_app, app_assoc. reflexivity. }
  unfold collected. rewrite Hheap, Hlocs. reflexivity.
Qed.

Section combination.
Variable ls : list (list value).
Variable bl : nat.

Lemma combination_loop_spec recur (d : nat) :
  d < length ls ->
  (d + 1 < length ls ->
   level_spec ls bl (d + 1) (product (drop (d + 1) ls))
              (fun combs h => recur bl combs (d + 1) (VSlice <$> ls) h)) ->
  forall elems,
    level_spec ls bl d (a ← elems; (cons a) <$> product (drop (d + 1) ls))
               (fun combs h => combination_loop recur bl d (VSlice <$> ls) elems combs h).
Proof.
  intros Hd Hrec. induction elems as [|e elems IH]; intros combs h buf Hbuf Hlen.
  - exists buf. unfold collected. simpl. rewrite list_insert_id by assumption.
    rewrite !app_nil_r. auto.
  - rewrite bind_cons. cbn [combination_loop].
    rewrite (store_inside h bl d e buf) by (assumption || lia). simpl.
    set (buf1 := <[d := e]> buf). set (h1 := <[bl := buf1]> h).
    assert (Hbl : bl < length h) by (eapply lookup_lt_Some; eassumption).
    assert (Hbuf1 : h1 !! bl = Some buf1) by (apply list_lookup_insert_eq; assumption).
    assert (Hlen1 : length buf1 = length ls) by (unfold buf1; rewrite length_insert; assumption).
    assert (Hh1 : length h1 = length h) by (apply length_insert).
    assert (Htake1 : take d buf1 = take d buf) by (apply take_insert_ge; lia).
    assert (Hsnoc : take (d + 1) buf1 = take d buf ++ [e])
      by (apply take_insert_snoc; lia).
    destruct (decide (d + 1 < length (VSlice <$> ls))) as [Hdeep | Hlast];
      rewrite length_fmap in *.
    + destruct (Hrec Hdeep combs h1 buf1 Hbuf1 Hlen1) as (buf2 & -> & Htake2 & Hlen2).
      unfold collected at 1. simpl.
      set (P := product (drop (d + 1) ls)) in *.
      set (h2 := <[bl := buf2]> h1 ++ (app (take (d + 1) buf1) <$> P)).
      assert (Hbuf2 : h2 !! bl = Some buf2).
      { unfold h2. rewrite lookup_app_l by (rewrite length_insert; lia).
        apply list_lookup_insert_eq. lia. }
      destruct (IH (combs ++ seq (length h1) (length P)) h2 buf2 Hbuf2 Hlen2)
        as (buf3 & -> & Htake3 & Hlen3).
      assert (Htake_d2 : take d buf2 = take d buf).
      { rewrite <- Htake1. apply (take_prefix_eq buf2 buf1 d (d + 1)); [lia | assumption]. }
      exists buf3. split; [|split; [congruence | assumption]].
      rewrite Htake_d2, Hh1. unfold h2. rewrite Hsnoc. unfold h1.
      apply collected_round. assumption.
    + assert (Hfull : buf1 = take d buf ++ [e]).
      { rewrite <- Hsnoc. symmetry. apply take_ge. lia. }
      assert (Hnil : product (drop (d + 1) ls) = [[]]).
      { rewrite drop_ge by lia. reflexivity. }
      unfold copy, cells. rewrite (list_lookup_total_correct h1 bl buf1 Hbuf1).
      set (h2 := h1 ++ [buf1]).
      assert (Hbuf2 : h2 !! bl = Some buf1).
      { unfold h2. rewrite lookup_app_l by lia. assumption. }
      destruct (IH (combs ++ [length h1]) h2 buf1 Hbuf2 Hlen1)
        as (buf3 & -> & Htake3 & Hlen3).
      exists buf3. split; [|split; [congruence | assumption]].
      rewrite Htake1, Hnil, Hh1.
      rewrite <- (collected_round bl h buf1 buf1 buf3 (take d buf) e [[]]) by assumption.
      unfold h2, h1. simpl. rewrite list_insert_insert_eq, app_nil_r, <- Hfull.
      reflexivity.
Qed.

Lemma combination_spec (fuel : nat) :
  forall d, d < length ls -> length ls - d <= fuel ->
    level_spec ls bl d (product (drop d ls))
               (fun combs h => combination fuel bl combs d (VSlice <$> ls) h).
Proof.
  induction fuel as [|fuel IH]; intros d Hd Hfuel; [lia|].
  destruct (lookup_lt_is_Some_2 ls d Hd) as [l Hl].
  rewrite (drop_S ls l d Hl). cbn [product].
  intros combs h buf Hbuf Hlen. cbn [combination].
  rewrite (index_inside (VSlice <$> ls) d (VSlice l))
    by (rewrite list_lookup_fmap, Hl; reflexivity).
  simpl.
  replace (S d) with (d + 1) by lia.
  apply (combination_loop_spec (combination fuel) d Hd); [|assumption..].
  intros Hdeep. apply IH; lia.
Qed.
End combination.

Lemma combination_step (fuel bl : nat) (combs : list nat) (d : nat)
    (slices : list value) (h : list (list value)) :
  combination (S fuel) bl combs d slices h =
  (slice ← index slices (Z.of_nat d);
   if negb (is_Slice slice) then Ret (h, combs, Some NotSliceErr)
   else combination_loop (combination fuel) bl d slices (elems_of slice) combs h).
Proof. reflexivity. Qed.

(** The fuel is a device of the model only: with more fuel than there
    are levels left, no call runs out of it. *)
Lemma combination_loop_has_fuel recur (bl d : nat) (slices : list value) :
  (forall combs h, recur bl combs (d + 1) slices h <> OutOfFuel) ->
  forall elems combs h, combination_loop recur bl d slices elems combs h <> OutOfFuel.
Proof.
  intros Hrec. induction elems as [|e elems IH]; intros combs h; [discriminate|].
  cbn [combination_loop]. unfold store.
  destruct (decide (d < length (cells h bl))); [|discriminate]. simpl.
  destruct (decide (d + 1 < length slices)).
  - destruct (recur bl combs (d + 1) slices _) as [[[h2 combs2] err]| |] eqn:Hcall.
    + apply IH.
    + discriminate.
    + exfalso. eapply Hrec. eassumption.
  - apply IH.
Qed.

Lemma combination_has_fuel (slices : list value) (fuel : nat) :
  forall d bl combs h,
    length slices - d < fuel -> combination fuel bl combs d slices h <> OutOfFuel.
Proof.
  induction fuel as [|fuel IH]; intros d bl combs h Hfuel; [lia|].
  rewrite combination_step.
  destruct (index slices (Z.of_nat d)) as [slice| |] eqn:Hindex; simpl.
  - destruct (negb (is_Slice slice)); [discriminate|].
    destruct (decide (d + 1 < length slices)) as [Hdeep|Hlast].
    + apply combination_loop_has_fuel. intros combs' h'. apply IH. lia.
    + clear IH. generalize (elems_of slice) as elems. intros elems. revert combs h.
      induction elems as [|e elems IHe]; intros combs h; [discriminate|].
      cbn [combination_loop]. unfold store.
      destruct (decide (d < length (cells h bl))); [|discriminate]. simpl.
      destruct (decide (d + 1 < length slices)); [lia|]. apply IHe.
  - discriminate.
  - unfold index in Hindex.
    destruct (Z.of_nat d <? 0)%Z; [discriminate|].
    destruct (slices !! Z.to_nat (Z.of_nat d)); discriminate.
Qed.

Lemma Combination_has_fuel (slices : list value) : Combination slices <> OutOfFuel.
Proof.
  unfold Combination, Combination_store, make.
  destruct (combination _ _ _ _ _ _) as [[[h combs] err]| |] eqn:Hrun.
  - discriminate.
  - discriminate.
  - exfalso. eapply combination_has_fuel; [|eassumption]. lia.
Qed.

(** Reading the collected locations back from the store. *)
Lemma read_back (pre P : list (list value)) :
  (fun c => VSlice (cells (pre ++ P) c)) <$> seq (length pre) (length P) = VSlice <$> P.
Proof.
  revert pre. induction P as [|t P IH]; intros pre; [reflexivity|].
  cbn [length seq fmap list_fmap]. f_equal.
  - unfold cells. rewrite list_lookup_total_middle by reflexivity. reflexivity.
  - specialize (IH (pre ++ [t])). rewrite <- app_assoc, length_app in IH.
    simpl in IH. rewrite Nat.add_1_r in IH. exact IH.
Qed.

Lemma Combination_store_slices (ls : list (list value)) :
  ls <> [] ->
  exists buf',
    Combination_store (VSlice <$> ls) =
      Ret (buf' :: product ls, seq 1 (length (product ls)), None)
    /\ length buf' = length ls.
Proof.
  intros Hne. unfold Combination_store, make. rewrite length_fmap.
  assert (Hpos : 0 < length ls) by (destruct ls; [congruence | simpl; lia]).
  destruct (combination_spec ls 0 (S (length ls)) 0 Hpos ltac:(lia)
              [] ([] ++ [replicate (length ls) VNil]) (replicate (length ls) VNil))
    as (buf' & Hrun & _ & Hlen).
  - reflexivity.
  - apply length_replicate.
  - exists buf'. split; [|assumption].
    cbn [length app] in *. rewrite Hrun. unfold collected. rewrite drop_0, take_0.
    rewrite (list_fmap_ext (app []) id (product ls)) by reflexivity.
    rewrite list_fmap_id. reflexivity.
Qed.

Lemma Combination_slices (ls : list (list value)) :
  ls <> [] -> Combination (VSlice <$> ls) = Ret (VSlice <$> product ls, None).
Proof.
  intros Hne. unfold Combination.
  destruct (Combination_store_slices ls Hne) as (buf' & -> & _). simpl.
  rewrite <- (read_back [buf'] (product ls)). reflexivity.
Qed.

Lemma bind_to_nil (l : list value) :
  (a ← l; (cons a) <$> ([] : list (list value))) = [].
Proof. induction l as [|a l IH]; [reflexivity|]. rewrite bind_cons, IH. reflexivity. Qed.

Lemma product_with_empty (ls : list (list value)) : [] ∈ ls -> product ls = [].
Proof.
  induction ls as [|l ls IH]; intros Hin.
  - inversion Hin.
  - apply elem_of_cons in Hin as [<- | Hin].
    + reflexivity.
    + simpl. rewrite (IH Hin). apply bind_to_nil.
Qed.

Lemma product_pairs (A B : list value) :
  product [A; B] = pairs A B.
Proof.
  unfold pairs. simpl. apply list_bind_ext; [|reflexivity]. intros a.
  assert (Hone : (b ← B; [[b]]) = (fun b => [b]) <$> B).
  { induction B as [|b B IH]; [reflexivity|]. rewrite bind_cons, IH. reflexivity. }
  change (cons a <$> (b ← B; [[b]]) = (fun b => [a; b]) <$> B).
  rewrite Hone, <- list_fmap_compose. reflexivity.
Qed.

Lemma pairs_length (A B : list value) :
  length (pairs A B) = length A * length B.
Proof.
  unfold pairs. induction A as [|a A IH]; [reflexivity|].
  rewrite bind_cons, length_app, length_fmap, IH. simpl. reflexivity.
Qed.

Lemma pairs_lookup (A B : list value) (i j : nat) (a b : value) :
  A !! i = Some a -> B !! j = Some b ->
  pairs A B !! (i * length B + j) = Some [a; b].
Proof.
  unfold pairs. revert i. induction A as [|a0 A IH]; intros i Ha Hb; [discriminate|].
  rewrite bind_cons. destruct i as [|i]; simpl in Ha.
  - injection Ha as ->. simpl.
    rewrite lookup_app_l by (rewrite length_fmap; eapply lookup_lt_Some; eassumption).
    rewrite list_lookup_fmap, Hb. reflexivity.
  - rewrite lookup_app_r by (rewrite length_fmap; simpl; lia).
    rewrite length_fmap.
    replace (S i * length B + j - length B) with (i * length B + j) by (simpl; lia).
    apply IH; assumption.
Qed.

(** C3.  On two slices [A] and [B], [Combination] returns the pairs
    [[a; b]] with [a] from [A] and [b] from [B]: [length A * length B] of
    them, the pair of [A]'s element [i] and [B]'s element [j] at index
    [i * length B + j].  In the store each pair is a slice of its own:
    the locations collected are distinct from one another and from the
    working buffer. *)
Theorem Combination_of_two (A B : list value) :
  Combination [VSlice A; VSlice B] =
    Ret (VSlice <$> pairs A B, None) /\
  length (pairs A B) = length A * length B /\
  (forall i j a b, A !! i = Some a -> B !! j = Some b ->
     pairs A B !! (i * length B + j) = Some [a; b]) /\
  (exists h combinations,
     Combination_store [VSlice A; VSlice B] = Ret (h, combinations, None) /\
     NoDup combinations /\
     ((make 2 []).1 ∉ combinations) /\
     forall i c, combinations !! i = Some c ->
       h !! c = pairs A B !! i).
Proof.
  split; [|split; [|split]].
  - rewrite <- product_pairs.
    apply (Combination_slices [A; B]). discriminate.
  - apply pairs_length.
  - apply pairs_lookup.
  - destruct (Combination_store_slices [A; B]) as (buf' & Hrun & _); [discriminate|].
    exists (buf' :: product [A; B]), (seq 1 (length (product [A; B]))).
    split; [exact Hrun|]. split; [apply NoDup_seq|]. split.
    + simpl. rewrite elem_of_seq. lia.
    + intros i c Hc. apply lookup_seq in Hc as [-> _].
      rewrite product_pairs. reflexivity.
Qed.

(** C4.  When every argument is a slice and one of them has no element,
    [Combination] returns no combination and no error. *)
Theorem Combination_with_empty_slice (ls : list (list value)) :
  [] ∈ ls -> Combination (VSlice <$> ls) = Ret ([], None).
Proof.
  intros Hin. rewrite Combination_slices.
  - rewrite product_with_empty by assumption. reflexivity.
  - intros ->. inversion Hin.
Qed.

Lemma Combination_with_empty_slice_witness :
  Combination [VSlice [VInt 1; VInt 2]; VSlice []; VSlice [VString "a"]] = Ret ([], None).
Proof.
  apply (Combination_with_empty_slice [[VInt 1; VInt 2]; []; [VString "a"]]).
  apply list_elem_of_further, list_elem_of_here.
Defined.

(** The loop of depth 0 when the second argument is not a slice: every
    recursive call returns [NotSliceErr], the loop drops it and goes on,
    and nothing is collected. *)
Lemma loop_over_non_slice (A : list value) (x : value) (fuel : nat) (elems : list value) :
  is_Slice x = false ->
  forall h buf, h !! 0 = Some buf -> length buf = 2 ->
    exists h',
      combination_loop (combination (S fuel)) 0 0 [VSlice A; x] elems [] h
      = Ret (h', [], None).
Proof.
  intros Hx. induction elems as [|e elems IH]; intros h buf Hbuf Hlen.
  - exists h. reflexivity.
  - cbn [combination_loop].
    rewrite (store_inside h 0 0 e buf) by (assumption || lia). simpl.
    rewrite Hx. simpl.
    apply (IH _ (<[0 := e]> buf)).
    + apply list_lookup_insert_eq. eapply lookup_lt_Some; eassumption.
    + rewrite length_insert. assumption.
Qed.

(** C1.  A second argument that is not a slice goes unreported: behind a
    first argument that is a slice, [Combination] returns no combination
    and no error. *)
Theorem Combination_misses_non_slice (A : list value) (x : value) :
  is_Slice x = false -> Combination [VSlice A; x] = Ret ([], None).
Proof.
  intros Hx. unfold Combination, Combination_store, make.
  cbn [length app]. rewrite combination_step.
  rewrite (index_inside [VSlice A; x] 0 (VSlice A) eq_refl).
  cbn [mbind outcome_bind is_Slice Kind_of negb elems_of replicate].
  destruct (loop_over_non_slice A x 1 A Hx [[VNil; VNil]] [VNil; VNil] eq_refl eq_refl)
    as (h' & ->).
  reflexivity.
Qed.

Lemma Combination_misses_non_slice_witness :
  Combination [VSlice [VInt 1]; VInt 5] = Ret ([], None).
Proof. apply (Combination_misses_non_slice [VInt 1] (VInt 5)). reflexivity. Defined.

(** C2.  [Combination] without arguments panics: the first thing
    [combination] does is to index the empty [slices] at 0. *)
Theorem Combination_of_nothing_panics : Combination [] = Panic IndexOutOfRange.
Proof. reflexivity. Qed.

(** C9.  [Map] and [Select] look at the kind of the collection before
    they look at the function: a collection that is not a slice gives
    [NotSliceErr] whatever the function is, and the nil-function errors
    come only with a slice and a nil function. *)
Theorem kind_check_before_nil_check (collection : value) (mapFunc : option MapFunc)
    (selectFunc : option SelectFunc) :
  (is_Slice collection = false ->
   Map collection mapFunc = ([], Some NotSliceErr) /\
   Select collection selectFunc = ([], Some NotSliceErr)) /\
  ((Map collection mapFunc).2 = Some NilMapFuncErr ->
   is_Slice collection = true /\ mapFunc = None) /\
  ((Select collection selectFunc).2 = Some NilSelectFuncErr ->
   is_Slice collection = true /\ selectFunc = None).
Proof.
  unfold Map, Select. destruct (is_Slice collection); simpl.
  - split; [discriminate|]. split.
    + destruct mapFunc; [discriminate | auto].
    + destruct selectFunc; [discriminate | auto].
  - split; [auto|]. split; discriminate.
Qed.

Lemma kind_check_before_nil_check_witness :
  (Map (VInt 7) None = ([], Some NotSliceErr) /\
   Select (VInt 7) None = ([], Some NotSliceErr)) /\
  (is_Slice (VSlice [VInt 7]) = true /\ (None : option MapFunc) = None).
Proof.
  split.
  - apply (proj1 (kind_check_before_nil_check (VInt 7) None None)). reflexivity.
  - apply (proj1 (proj2 (kind_check_before_nil_check (VSlice [VInt 7]) None None))).
    reflexivity.
Defined.

End utils_facts.

(** ** More on package arraylist: insertion, lookup and removal *)

Module arraylist_more.
Import arraylist spec Go_facts arraylist_facts.

Lemma AddAt_inside (a : ArrayList) (pos : Z) (objs : list value) :
  (0 <= pos <= Size a)%Z ->
  AddAt a pos objs =
  Ret ({| slice := take (Z.to_nat pos) (slice a) ++ objs ++ drop (Z.to_nat pos) (slice a) |},
       None).
Proof.
  intros Hpos. unfold AddAt.
  destruct (checkRangeForAddAt_cases a pos) as [[-> _] | [_ Hout]]; [|lia].
  destruct (Z.eqb_spec pos 0) as [-> | Hne0].
  - simpl. rewrite drop_0. reflexivity.
  - destruct (Z.eqb_spec pos (Size a)) as [-> | Hne].
    + unfold Size, Add. rewrite Nat2Z.id, firstn_all, drop_all, app_nil_r. reflexivity.
    + rewrite addAt_inside by assumption. reflexivity.
Qed.

Lemma AddAt_outside (a : ArrayList) (pos : Z) (objs : list value) :
  ~ (0 <= pos <= Size a)%Z ->
  AddAt a pos objs = Ret (a, Some (indexOutOfRangeErr pos (Size a))).
Proof.
  intros Hpos. unfold AddAt.
  destruct (checkRangeForAddAt_cases a pos) as [[_ Hin] | [-> _]]; [lia|]. reflexivity.
Qed.

Lemma Get_inside (a : ArrayList) (i : nat) (v : value) :
  slice a !! i = Some v -> Get a (Z.of_nat i) = Ret (v, None).
Proof.
  intros Hv. unfold Get.
  rewrite checkRange_inside
    by (unfold Size; apply lookup_lt_Some in Hv; lia).
  rewrite (index_inside _ _ _ Hv). reflexivity.
Qed.

Lemma Get_outside (a : ArrayList) (pos : Z) :
  ~ (0 <= pos < Size a)%Z ->
  Get a pos = Ret (VNil, Some (indexOutOfRangeErr pos (Size a))).
Proof. intros Hpos. unfold Get. rewrite checkRange_outside by assumption. reflexivity. Qed.

Lemma take_drop_around (front back : list value) (x : value) (n : nat) :
  n = length front ->
  take n (front ++ x :: back) ++ drop (S n) (front ++ x :: back) = front ++ back.
Proof. intros ->. rewrite <- delete_take_drop. apply delete_middle. Qed.

(** X1.  Inside [0, Size] [AddAt] puts the new elements, in their order,
    between the first [pos] elements of the list and the rest; the size
    grows by their number. *)
Theorem AddAt_inserts_at_position (a : ArrayList) (pos : Z) (objs : list value) :
  (0 <= pos <= Size a)%Z ->
  exists a',
    AddAt a pos objs = Ret (a', None) /\
    slice a' = take (Z.to_nat pos) (slice a) ++ objs ++ drop (Z.to_nat pos) (slice a) /\
    Size a' = (Size a + Z.of_nat (length objs))%Z.
Proof.
  intros Hpos. eexists. split; [apply AddAt_inside; assumption|].
  split; [reflexivity|].
  unfold Size in *. simpl. rewrite !length_app, length_take, length_drop. lia.
Qed.

Lemma AddAt_inserts_at_position_witness :
  exists a',
    AddAt {| slice := ints [1; 2; 3]%Z |} 2 (ints [8; 9]%Z) = Ret (a', None) /\
    slice a' = ints [1; 2; 8; 9; 3]%Z /\
    Size a' = 5%Z.
Proof.
  apply (AddAt_inserts_at_position {| slice := ints [1; 2; 3]%Z |} 2 (ints [8; 9]%Z)).
  vm_compute. split; discriminate.
Defined.

(** X2.  [AddAt] returns an error exactly when the position is outside
    [0, Size]. *)
Theorem AddAt_fails_iff_outside (a : ArrayList) (pos : Z) (objs : list value) :
  (exists a' e, AddAt a pos objs = Ret (a', Some e)) <-> ~ (0 <= pos <= Size a)%Z.
Proof.
  split.
  - intros (a' & e & Hcall) Hin.
    rewrite AddAt_inside in Hcall by assumption. discriminate.
  - intros Hout. exists a, (indexOutOfRangeErr pos (Size a)).
    apply AddAt_outside. assumption.
Qed.

(** X3.  After [Add], [Get] finds the old elements at their positions
    and the new ones, in their order, from position [Size] on. *)
Theorem Get_after_Add (a : ArrayList) (objs : list value) (i : nat) (v : value) :
  (slice a !! i = Some v -> Get (Add a objs) (Z.of_nat i) = Ret (v, None)) /\
  (objs !! i = Some v -> Get (Add a objs) (Size a + Z.of_nat i) = Ret (v, None)).
Proof.
  split; intros Hv.
  - apply Get_inside. simpl. apply lookup_app_l_Some. assumption.
  - unfold Size. rewrite <- Nat2Z.inj_add. apply Get_inside. simpl.
    rewrite lookup_app_r by lia.
    replace (length (slice a) + i - length (slice a)) with i by lia. assumption.
Qed.

Lemma Get_after_Add_witness :
  Get (Add {| slice := ints [1; 2]%Z |} (ints [7; 8]%Z)) 1 = Ret (VInt 2, None) /\
  Get (Add {| slice := ints [1; 2]%Z |} (ints [7; 8]%Z)) 3 = Ret (VInt 8, None).
Proof.
  pose proof (Get_after_Add {| slice := ints [1; 2]%Z |} (ints [7; 8]%Z) 1) as H.
  split.
  - apply (proj1 (H (VInt 2))). reflexivity.
  - apply (proj2 (H (VInt 8))). reflexivity.
Defined.

(** X4.  After [AddFirst], [Get] finds the new elements, in their order,
    from position 0 on and the old ones behind them. *)
Theorem Get_after_AddFirst (a : ArrayList) (objs : list value) (i : nat) (v : value) :
  (objs !! i = Some v -> Get (AddFirst a objs) (Z.of_nat i) = Ret (v, None)) /\
  (slice a !! i = Some v ->
   Get (AddFirst a objs) (Z.of_nat (length objs) + Z.of_nat i) = Ret (v, None)).
Proof.
  split; intros Hv.
  - apply Get_inside. simpl. apply lookup_app_l_Some. assumption.
  - rewrite <- Nat2Z.inj_add. apply Get_inside. simpl.
    rewrite lookup_app_r by lia.
    replace (length objs + i - length objs) with i by lia. assumption.
Qed.

Lemma Get_after_AddFirst_witness :
  Get (AddFirst {| slice := ints [1; 2]%Z |} (ints [7; 8]%Z)) 1 = Ret (VInt 8, None) /\
  Get (AddFirst {| slice := ints [1; 2]%Z |} (ints [7; 8]%Z)) (2 + 0) = Ret (VInt 1, None).
Proof.
  split.
  - apply (proj1 (Get_after_AddFirst {| slice := ints [1; 2]%Z |} (ints [7; 8]%Z) 1 (VInt 8))).
    reflexivity.
  - apply (proj2 (Get_after_AddFirst {| slice := ints [1; 2]%Z |} (ints [7; 8]%Z) 0 (VInt 1))).
    reflexivity.
Defined.

(** X5.  [Get] never panics: inside [0, Size) it returns the element at
    the position and no error, outside it returns nil and the
    index-out-of-range error. *)
Theorem Get_inside_or_error (a : ArrayList) (pos : Z) :
  ((0 <= pos < Size a)%Z /\
   exists v, slice a !! Z.to_nat pos = Some v /\ Get a pos = Ret (v, None)) \/
  (~ (0 <= pos < Size a)%Z /\
   Get a pos = Ret (VNil, Some (indexOutOfRangeErr pos (Size a)))).
Proof.
  destruct (decide (0 <= pos < Size a)%Z) as [Hin | Hout].
  - left. split; [assumption|].
    destruct (lookup_lt_is_Some_2 (slice a) (Z.to_nat pos)) as [v Hv];
      [unfold Size in Hin; lia|].
    exists v. split; [assumption|].
    rewrite <- (Z2Nat.id pos) at 1 by lia. apply Get_inside. assumption.
  - right. split; [assumption|]. apply Get_outside. assumption.
Qed.

(** X6.  Inside [0, Size) [RemoveAt] takes one element out: the size
    drops by one, the elements before the position stay where they are
    and each element behind it moves one position to the front. *)
Theorem RemoveAt_shifts_left (a : ArrayList) (pos : Z) :
  (0 <= pos < Size a)%Z ->
  exists a',
    RemoveAt a pos = Ret (a', None) /\
    Size a' = (Size a - 1)%Z /\
    (forall i, i < Z.to_nat pos -> slice a' !! i = slice a !! i) /\
    (forall i, Z.to_nat pos <= i -> slice a' !! i = slice a !! S i).
Proof.
  intros Hpos. eexists. split; [apply RemoveAt_inside; assumption|].
  unfold Size in *. simpl. split; [|split].
  - rewrite length_app, length_take, length_drop. lia.
  - intros i Hi. rewrite lookup_app_l by (rewrite length_take; lia).
    apply lookup_take_lt. assumption.
  - intros i Hi. rewrite lookup_app_r by (rewrite length_take; lia).
    rewrite length_take, lookup_drop. f_equal. lia.
Qed.

Lemma RemoveAt_shifts_left_witness :
  exists a',
    RemoveAt {| slice := ints [1; 99; 2; 3]%Z |} 1 = Ret (a', None) /\
    Size a' = (4 - 1)%Z /\
    (forall i, i < 1 -> slice a' !! i = ints [1; 99; 2; 3]%Z !! i) /\
    (forall i, 1 <= i -> slice a' !! i = ints [1; 99; 2; 3]%Z !! S i).
Proof.
  apply (RemoveAt_shifts_left {| slice := ints [1; 99; 2; 3]%Z |} 1).
  vm_compute. split; [discriminate | reflexivity].
Defined.

(** X7.  [RemoveAt] undoes [AddAt] of one element at the same position. *)
Theorem RemoveAt_after_AddAt (a : ArrayList) (pos : Z) (x : value) :
  (0 <= pos <= Size a)%Z ->
  exists a', AddAt a pos [x] = Ret (a', None) /\ RemoveAt a' pos = Ret (a, None).
Proof.
  intros Hpos. eexists. split; [apply AddAt_inside; assumption|].
  unfold Size in Hpos.
  assert (Hlen : length (take (Z.to_nat pos) (slice a)) = Z.to_nat pos)
    by (rewrite length_take; lia).
  rewrite RemoveAt_inside.
  - simpl. rewrite take_drop_around by (symmetry; exact Hlen).
    rewrite take_drop. destruct a. reflexivity.
  - unfold Size. simpl. rewrite length_app, Hlen. simpl. lia.
Qed.

Lemma RemoveAt_after_AddAt_witness :
  exists a',
    AddAt {| slice := ints [1; 2; 3]%Z |} 1 [VInt 99] = Ret (a', None) /\
    RemoveAt a' 1 = Ret ({| slice := ints [1; 2; 3]%Z |}, None).
Proof.
  apply (RemoveAt_after_AddAt {| slice := ints [1; 2; 3]%Z |} 1 (VInt 99)).
  vm_compute. split; discriminate.
Defined.

(** X8.  [AddAt] undoes [RemoveAt]: putting the removed element back at
    its position gives the list as it was. *)
Theorem AddAt_after_RemoveAt (a : ArrayList) (pos : Z) (x : value) :
  (0 <= pos)%Z -> slice a !! Z.to_nat pos = Some x ->
  exists a', RemoveAt a pos = Ret (a', None) /\ AddAt a' pos [x] = Ret (a, None).
Proof.
  intros Hpos Hx.
  assert (Hlt : Z.to_nat pos < length (slice a)) by (eapply lookup_lt_Some; eassumption).
  eexists. split; [apply RemoveAt_inside; unfold Size; lia|].
  rewrite AddAt_inside.
  - simpl.
    rewrite take_app_length' by (rewrite length_take; lia).
    rewrite drop_app_length' by (rewrite length_take; lia).
    simpl. rewrite <- (drop_S _ _ _ Hx), take_drop.
    destruct a. reflexivity.
  - unfold Size. simpl. rewrite length_app, length_take, length_drop. lia.
Qed.

Lemma AddAt_after_RemoveAt_witness :
  exists a',
    RemoveAt {| slice := ints [1; 99; 2]%Z |} 1 = Ret (a', None) /\
    AddAt a' 1 [VInt 99] = Ret ({| slice := ints [1; 99; 2]%Z |}, None).
Proof.
  apply (AddAt_after_RemoveAt {| slice := ints [1; 99; 2]%Z |} 1 (VInt 99)).
  - discriminate.
  - reflexivity.
Defined.

(** X9.  [IndexOf] is -1 when no element is [DeepEqual] to the target;
    otherwise it is the position, inside [0, Size), of such an element,
    and no element before it is one. *)
Theorem IndexOf_is_first (a : ArrayList) (obj : value) :
  (IndexOf a obj = (-1)%Z /\ absent obj (slice a)) \/
  (exists k, IndexOf a obj = Z.of_nat k /\ k < length (slice a) /\
             match_at obj (slice a) k /\
             forall k', k' < k -> ~ match_at obj (slice a) k').
Proof.
  unfold IndexOf.
  destruct (first_occurrence obj (slice a))
    as [Hnone | (front & x & back & Hs & Hfront & Hx)].
  - left. split; [apply IndexOf_range_absent|]; assumption.
  - right. exists (length front). rewrite Hs.
    split; [rewrite IndexOf_range_found by assumption; lia|].
    split; [rewrite length_app; simpl; lia|].
    split.
    + exists x. split; [apply list_lookup_middle; reflexivity | assumption].
    + intros k' Hk' (o & Ho & Hmatch).
      rewrite lookup_app_l in Ho by assumption.
      unfold absent in Hfront. rewrite Forall_lookup in Hfront.
      specialize (Hfront k' o Ho). simpl in Hfront. congruence.
Qed.

(** X10.  [LastIndexOf] never panics.  It is -1 when no element is
    [DeepEqual] to the target; otherwise it is the position, inside
    [0, Size), of such an element, and no element behind it is one. *)
Theorem LastIndexOf_is_last (a : ArrayList) (obj : value) :
  (LastIndexOf a obj = Ret (-1)%Z /\ absent obj (slice a)) \/
  (exists k, LastIndexOf a obj = Ret (Z.of_nat k) /\ k < length (slice a) /\
             match_at obj (slice a) k /\
             forall k', k < k' -> ~ match_at obj (slice a) k').
Proof.
  unfold LastIndexOf, Size. rewrite Nat2Z.id.
  destruct (LastIndexOf_down_spec obj (slice a) (length (slice a)))
    as (j & -> & [[-> Hnone] | (k & o & -> & Hk & Hlook & Hmatch & Hafter)]); [lia| |].
  - left. split; [reflexivity|]. apply Forall_lookup. intros k o Ho.
    apply (Hnone k o); [eapply lookup_lt_Some; eassumption | assumption].
  - right. exists k. split; [reflexivity|]. split; [assumption|]. split.
    + exists o. split; assumption.
    + intros k' Hk' (o' & Ho' & Hmatch').
      rewrite (Hafter k' o') in Hmatch'; [discriminate| |assumption].
      split; [assumption | eapply lookup_lt_Some; eassumption].
Qed.

(** X11.  [Remove] is [RemoveAt] at the position [IndexOf] gives: it
    returns the element-not-found error when [IndexOf] is -1 and removes
    at [IndexOf] otherwise. *)
Theorem Remove_is_RemoveAt_of_IndexOf (a : ArrayList) (obj : value) :
  Remove a obj =
  if (IndexOf a obj =? -1)%Z then Ret (a, Some (elementNotFoundErr obj))
  else RemoveAt a (IndexOf a obj).
Proof.
  destruct (first_occurrence obj (slice a))
    as [Hnone | (front & x & back & Hs & Hfront & Hx)].
  - unfold Remove, IndexOf.
    rewrite Remove_range_absent, IndexOf_range_absent by assumption. reflexivity.
  - rewrite (Remove_found a obj front x back Hs Hfront Hx).
    assert (Hidx : IndexOf a obj = Z.of_nat (length front)).
    { unfold IndexOf. rewrite Hs, IndexOf_range_found by assumption. lia. }
    rewrite Hidx.
    destruct (Z.eqb_spec (Z.of_nat (length front)) (-1)) as [Hneg|_]; [lia|].
    rewrite RemoveAt_inside by (unfold Size; rewrite Hs, length_app; simpl; lia).
    rewrite Nat2Z.id, Hs, take_drop_around by reflexivity. reflexivity.
Qed.

(** X12.  A [Remove] that succeeds takes out one element [DeepEqual] to
    the target and nothing else: the size drops by one, one such element
    fewer is left, and the other elements are all there in their order. *)
Theorem Remove_takes_one (a a' : ArrayList) (obj : value) :
  Remove a obj = Ret (a', None) ->
  Size a' = (Size a - 1)%Z /\
  S (length (List.filter (fun o => DeepEqual o obj) (slice a')))
    = length (List.filter (fun o => DeepEqual o obj) (slice a)) /\
  List.filter (fun o => negb (DeepEqual o obj)) (slice a')
    = List.filter (fun o => negb (DeepEqual o obj)) (slice a).
Proof.
  destruct (first_occurrence obj (slice a))
    as [Hnone | (front & x & back & Hs & Hfront & Hx)].
  - unfold Remove. rewrite Remove_range_absent by assumption. discriminate.
  - rewrite (Remove_found a obj front x back Hs Hfront Hx). intros [= <-].
    unfold Size. cbn [slice]. rewrite Hs, !List.filter_app. cbn [List.filter].
    rewrite Hx. cbn [negb]. split; [|split].
    + rewrite !length_app. cbn [length]. lia.
    + rewrite !length_app. cbn [length]. lia.
    + reflexivity.
Qed.

Lemma Remove_takes_one_witness :
  Size {| slice := ints [1; 3; 2]%Z |} = (Size {| slice := ints [1; 2; 3; 2]%Z |} - 1)%Z /\
  S (length (List.filter (fun o => DeepEqual o (VInt 2)) (ints [1; 3; 2]%Z)))
    = length (List.filter (fun o => DeepEqual o (VInt 2)) (ints [1; 2; 3; 2]%Z)) /\
  List.filter (fun o => negb (DeepEqual o (VInt 2))) (ints [1; 3; 2]%Z)
    = List.filter (fun o => negb (DeepEqual o (VInt 2))) (ints [1; 2; 3; 2]%Z).
Proof.
  apply (Remove_takes_one {| slice := ints [1; 2; 3; 2]%Z |}
                          {| slice := ints [1; 3; 2]%Z |} (VInt 2)).
  reflexivity.
Defined.

(** X21.  The position [IndexOf] or [LastIndexOf] gives, when it is not
    negative, is one [Get] accepts, and the element [Get] returns there
    is [DeepEqual] to the target. *)
Theorem Get_at_the_index_found (a : ArrayList) (obj : value) (i : Z) :
  (0 <= i)%Z -> IndexOf a obj = i \/ LastIndexOf a obj = Ret i ->
  exists v, Get a i = Ret (v, None) /\ DeepEqual v obj = true.
Proof.
  intros Hi Hfound.
  assert (Hat : exists k, i = Z.of_nat k /\ match_at obj (slice a) k).
  { destruct Hfound as [Hfirst | Hlast].
    - unfold IndexOf in Hfirst.
      destruct (first_occurrence obj (slice a))
        as [Hnone | (front & x & back & Hs & Hfront & Hx)].
      + rewrite IndexOf_range_absent in Hfirst by assumption. lia.
      + exists (length front). split.
        * rewrite Hs, IndexOf_range_found in Hfirst by assumption. lia.
        * exists x. split; [rewrite Hs; apply list_lookup_middle; reflexivity | assumption].
    - unfold LastIndexOf, Size in Hlast. rewrite Nat2Z.id in Hlast.
      destruct (LastIndexOf_down_spec obj (slice a) (length (slice a)))
        as (j & Hj & [[-> _] | (k & o & -> & _ & Hlook & Hmatch & _)]); [lia| |].
      + rewrite Hj in Hlast. injection Hlast as <-. lia.
      + rewrite Hj in Hlast. injection Hlast as <-.
        exists k. split; [reflexivity|]. exists o. split; assumption. }
  destruct Hat as (k & -> & v & Hv & Hmatch).
  exists v. split; [apply Get_inside|]; assumption.
Qed.

Lemma Get_at_the_index_found_witness :
  exists v, Get {| slice := ints [1; 2; 3; 2]%Z |} 3 = Ret (v, None) /\
            DeepEqual v (VInt 2) = true.
Proof.
  apply (Get_at_the_index_found {| slice := ints [1; 2; 3; 2]%Z |} (VInt 2) 3).
  - discriminate.
  - right. reflexivity.
Defined.

(** X22.  [IsEmpty] is true exactly when [Get] fails at every position.
    After [Clear] the list is empty, and [Add] then leaves the elements
    added and nothing else. *)
Theorem IsEmpty_iff_no_Get (a : ArrayList) (objs : list value) :
  (IsEmpty a = true <->
   forall pos, Get a pos = Ret (VNil, Some (indexOutOfRangeErr pos 0))) /\
  IsEmpty (Clear a) = true /\
  slice (Add (Clear a) objs) = objs.
Proof.
  split; [|split; reflexivity].
  unfold IsEmpty. rewrite Z.eqb_eq. split.
  - intros Hsize pos. rewrite Get_outside by lia. rewrite Hsize. reflexivity.
  - intros Hget. specialize (Hget 0%Z). unfold Size.
    destruct (slice a) as [|v l] eqn:Hs; [reflexivity|].
    pose proof (Get_inside a 0 v) as Hfirst. rewrite Hs in Hfirst.
    specialize (Hfirst eq_refl). change (Z.of_nat 0) with 0%Z in Hfirst.
    rewrite Hfirst in Hget. discriminate.
Qed.

End arraylist_more.

(** ** More on package utils: the other functions, and [Combination] on
    any arguments *)

Module utils_more.
Import utils spec Go_facts utils_facts.

Lemma Compact_loop_filter (elems compact : list value) :
  Compact_loop elems compact = compact ++ List.filter (fun v => negb (is_nil v)) elems.
Proof.
  revert compact. induction elems as [|item elems IH]; intros compact; simpl.
  - rewrite app_nil_r. reflexivity.
  - destruct (is_nil item); simpl.
    + apply IH.
    + rewrite IH, <- app_assoc. reflexivity.
Qed.

Lemma Compact_slice (elems : list value) :
  Compact (VSlice elems) = (List.filter (fun v => negb (is_nil v)) elems, None).
Proof. unfold Compact. simpl. rewrite Compact_loop_filter. reflexivity. Qed.

(** X13.  [Compact] returns [NotSliceErr] for what is not a slice; for a
    slice it returns, without error, the elements that are not nil, in
    their order and as often as they occur. *)
Theorem Compact_keeps_the_non_nil (collection : value) :
  (is_Slice collection = false /\ Compact collection = ([], Some NotSliceErr)) \/
  (is_Slice collection = true /\
   exists compact,
     Compact collection = (compact, None) /\
     compact = List.filter (fun v => negb (is_nil v)) (elems_of collection) /\
     (VNil ∉ compact) /\
     compact `sublist_of` elems_of collection).
Proof.
  destruct collection as [| | | |elems]; try (left; split; reflexivity).
  right. split; [reflexivity|]. eexists. split; [apply Compact_slice|].
  split; [reflexivity|]. simpl. split.
  - rewrite list_elem_of_In, List.filter_In. intros [_ Hnil]. discriminate.
  - induction elems as [|item elems IH]; simpl.
    + constructor.
    + destruct (is_nil item); simpl; constructor; assumption.
Qed.

(** X14.  [Compact] changes nothing in what [Compact] returned. *)
Theorem Compact_twice (collection : value) :
  Compact (VSlice (Compact collection).1) = ((Compact collection).1, None).
Proof.
  rewrite Compact_slice. f_equal.
  destruct collection as [| | | |elems]; try reflexivity.
  rewrite Compact_slice. simpl.
  induction elems as [|item elems IH]; [reflexivity|]. simpl.
  destruct (is_nil item) eqn:Hnil; simpl; [assumption|].
  rewrite Hnil. simpl. f_equal. assumption.
Qed.

(** X15.  [Select] with the test [item != nil] is [Compact], on slices
    and on everything else. *)
Theorem Select_non_nil_is_Compact (collection : value) :
  Select collection (Some (fun item => negb (is_nil item))) = Compact collection.
Proof.
  unfold Select, Compact. destruct (is_Slice collection); simpl; [|reflexivity].
  rewrite Compact_loop_filter. reflexivity.
Qed.

Lemma IsIncluded_loop_absent (obj : value) (elems : list value) :
  absent obj elems -> IsIncluded_loop elems obj = (false, Some ElemNotFoundErr).
Proof.
  intros Habs. induction Habs as [|item elems Hitem _ IH]; simpl.
  - reflexivity.
  - rewrite Hitem. assumption.
Qed.

Lemma IsIncluded_loop_found (obj : value) (elems : list value) (k : nat) :
  match_at obj elems k -> IsIncluded_loop elems obj = (true, None).
Proof.
  revert k. induction elems as [|item elems IH]; intros k (o & Ho & Hmatch).
  - discriminate.
  - simpl. destruct (DeepEqual item obj) eqn:Hitem; [reflexivity|].
    destruct k as [|k]; simpl in Ho.
    + injection Ho as ->. congruence.
    + apply (IH k). exists o. split; assumption.
Qed.

(** X16.  [IsIncluded] has three answers: [NotSliceErr] for what is not a
    slice, true without error when some element of the slice is
    [DeepEqual] to the object, and false with [ElemNotFoundErr] when none
    is. *)
Theorem IsIncluded_answers (collection obj : value) :
  (is_Slice collection = false /\
   IsIncluded collection obj = (false, Some NotSliceErr)) \/
  (is_Slice collection = true /\ (exists k, match_at obj (elems_of collection) k) /\
   IsIncluded collection obj = (true, None)) \/
  (is_Slice collection = true /\ absent obj (elems_of collection) /\
   IsIncluded collection obj = (false, Some ElemNotFoundErr)).
Proof.
  destruct collection as [| | | |elems]; try (left; split; reflexivity).
  right. unfold IsIncluded. simpl.
  destruct (arraylist_facts.first_occurrence obj elems)
    as [Hnone | (front & x & back & -> & Hfront & Hx)].
  - right. split; [reflexivity|]. split; [assumption|].
    apply IsIncluded_loop_absent. assumption.
  - left. split; [reflexivity|].
    assert (Hat : match_at obj (front ++ x :: back) (length front)).
    { exists x. split; [apply list_lookup_middle; reflexivity | assumption]. }
    split; [exists (length front); assumption|].
    apply (IsIncluded_loop_found obj _ (length front)). assumption.
Qed.

(** X17.  On a slice and a function that is not nil, [Map] returns
    without error a slice as long as the collection whose element at
    each position is the function's value on the collection's element
    there. *)
Theorem Map_is_pointwise (elems : list value) (mapFunc : MapFunc) :
  exists newColl,
    Map (VSlice elems) (Some mapFunc) = (newColl, None) /\
    length newColl = length elems /\
    forall i, newColl !! i = mapFunc <$> elems !! i.
Proof.
  eexists. split; [reflexivity|]. simpl. split.
  - apply length_fmap.
  - intros i. apply list_lookup_fmap.
Qed.

(** X18.  On a slice and a function that is not nil, [Select] returns
    without error the elements the function accepts and no other, in
    the order of the collection. *)
Theorem Select_keeps_the_accepted (elems : list value) (selectFunc : SelectFunc) :
  exists newColl,
    Select (VSlice elems) (Some selectFunc) = (newColl, None) /\
    newColl `sublist_of` elems /\
    (forall obj, obj ∈ newColl <-> obj ∈ elems /\ selectFunc obj = true) /\
    length newColl + length (Select (VSlice elems) (Some (fun obj => negb (selectFunc obj)))).1
      = length elems.
Proof.
  eexists. split; [reflexivity|]. simpl. split; [|split].
  - induction elems as [|obj elems IH]; simpl.
    + constructor.
    + destruct (selectFunc obj); constructor; assumption.
  - intros obj. rewrite !list_elem_of_In. apply List.filter_In.
  - induction elems as [|obj elems IH]; simpl; [reflexivity|].
    destruct (selectFunc obj); simpl; lia.
Qed.

Lemma product_length (ls : list (list value)) : length (product ls) = product_size ls.
Proof.
  induction ls as [|l ls IH]; [reflexivity|]. simpl. rewrite <- IH.
  generalize (product ls) as P. intros P.
  induction l as [|a l IHl]; [reflexivity|].
  rewrite bind_cons, length_app, length_fmap, IHl. reflexivity.
Qed.

Lemma product_elem_of (ls : list (list value)) (t : list value) :
  t ∈ product ls <-> Forall2 (fun x l => x ∈ l) t ls.
Proof.
  revert t. induction ls as [|l ls IH]; intros t; simpl.
  - rewrite list_elem_of_singleton. split.
    + intros ->. constructor.
    + intros H. inversion H. reflexivity.
  - rewrite list_elem_of_bind. split.
    + intros (a & Ht & Ha). apply list_elem_of_fmap in Ht as (t' & -> & Ht').
      constructor; [assumption|]. apply IH. assumption.
    + intros H. inversion H as [|a l' t' ls' Ha Ht']; subst.
      exists a. split; [|assumption].
      apply list_elem_of_fmap. exists t'. split; [reflexivity|]. apply IH. assumption.
Qed.

(** X19.  On one or more slices [Combination] returns, without error,
    the Cartesian product in the order of nested loops, the first slice
    outermost: as many combinations as the product of the lengths, each
    with one element of every slice at that slice's position, and every
    such choice among them. *)
Theorem Combination_is_the_product (ls : list (list value)) :
  ls <> [] ->
  Combination (VSlice <$> ls) = Ret (VSlice <$> product ls, None) /\
  length (product ls) = product_size ls /\
  (forall t, t ∈ product ls <-> Forall2 (fun x l => x ∈ l) t ls).
Proof.
  intros Hne. split; [apply Combination_slices; assumption|].
  split; [apply product_length|]. apply product_elem_of.
Qed.

Lemma Combination_is_the_product_witness :
  Combination (VSlice <$> [ints [1; 2]%Z; ints [3]%Z; ints [4; 5]%Z]) =
    Ret (VSlice <$> product [ints [1; 2]%Z; ints [3]%Z; ints [4; 5]%Z], None) /\
  length (product [ints [1; 2]%Z; ints [3]%Z; ints [4; 5]%Z]) = 4 /\
  (forall t, t ∈ product [ints [1; 2]%Z; ints [3]%Z; ints [4; 5]%Z] <->
             Forall2 (fun x l => x ∈ l) t [ints [1; 2]%Z; ints [3]%Z; ints [4; 5]%Z]).
Proof.
  apply (Combination_is_the_product [ints [1; 2]%Z; ints [3]%Z; ints [4; 5]%Z]).
  discriminate.
Defined.

(** X23.  For any number of slices, every combination [Combination]
    collects is a slice of its own: the locations collected are distinct
    from one another and from the working buffer, and each holds its
    combination when the run is over. *)
Theorem Combination_copies_the_buffer (ls : list (list value)) :
  ls <> [] ->
  exists h combinations,
    Combination_store (VSlice <$> ls) = Ret (h, combinations, None) /\
    NoDup combinations /\
    ((make (length ls) []).1 ∉ combinations) /\
    length combinations = length (product ls) /\
    forall i c, combinations !! i = Some c -> h !! c = product ls !! i.
Proof.
  intros Hne. destruct (Combination_store_slices ls Hne) as (buf' & Hrun & _).
  exists (buf' :: product ls), (seq 1 (length (product ls))).
  split; [exact Hrun|]. split; [apply NoDup_seq|]. split; [|split].
  - simpl. rewrite elem_of_seq. lia.
  - apply length_seq.
  - intros i c Hc. apply lookup_seq in Hc as [-> _]. reflexivity.
Qed.

Lemma Combination_copies_the_buffer_witness :
  exists h combinations,
    Combination_store (VSlice <$> [ints [1; 2]%Z; ints [3]%Z]) = Ret (h, combinations, None) /\
    NoDup combinations /\
    ((make 2 []).1 ∉ combinations) /\
    length combinations = length (product [ints [1; 2]%Z; ints [3]%Z]) /\
    forall i c, combinations !! i = Some c ->
                h !! c = product [ints [1; 2]%Z; ints [3]%Z] !! i.
Proof.
  apply (Combination_copies_the_buffer [ints [1; 2]%Z; ints [3]%Z]). discriminate.
Defined.

(** The store stays in order under the two things the loop does to it. *)
Lemma store_keeps_order (n bl d : nat) (e : value) (h : list (list value))
    (combs : list nat) :
  d < n -> store_ok n bl h combs ->
  exists h1, store bl d e h = Ret h1 /\ length h1 = length h /\ store_ok n bl h1 combs.
Proof.
  intros Hd (Hcells & Hbl & Hcombs). unfold store, cells.
  destruct (lookup_lt_is_Some_2 h bl Hbl) as [buf Hbuf].
  rewrite (list_lookup_total_correct h bl buf Hbuf).
  assert (Hlen : length buf = n).
  { rewrite Forall_lookup in Hcells. apply (Hcells bl buf Hbuf). }
  destruct (decide (d < length buf)); [|lia].
  eexists. split; [reflexivity|]. rewrite length_insert. split; [reflexivity|].
  unfold store_ok. rewrite length_insert. split; [|split; assumption].
  apply Forall_insert; [assumption|]. rewrite length_insert. assumption.
Qed.

Lemma copy_keeps_order (n bl : nat) (h : list (list value)) (combs : list nat) :
  store_ok n bl h combs ->
  store_ok n bl (copy bl h).2 (combs ++ [(copy bl h).1]).
Proof.
  intros (Hcells & Hbl & Hcombs). unfold copy, cells. simpl.
  destruct (lookup_lt_is_Some_2 h bl Hbl) as [buf Hbuf].
  rewrite (list_lookup_total_correct h bl buf Hbuf).
  assert (Hlen : length buf = n).
  { rewrite Forall_lookup in Hcells. apply (Hcells bl buf Hbuf). }
  split; [|split].
  - apply Forall_app. split; [assumption|]. constructor; [assumption | constructor].
  - rewrite length_app. simpl. lia.
  - rewrite length_app. simpl. apply Forall_app. split.
    + eapply Forall_impl; [exact Hcombs|]. simpl. intros l Hl. lia.
    + constructor; [lia | constructor].
Qed.

Section any_arguments.
Variable slices : list value.
Variable bl : nat.

Lemma combination_loop_safe recur (d : nat) :
  d < length slices ->
  (d + 1 < length slices ->
   exists b, level_safe (length slices) bl b
               (fun combs h => recur bl combs (d + 1) slices h)) ->
  forall elems,
    level_safe (length slices) bl true
      (fun combs h => combination_loop recur bl d slices elems combs h).
Proof.
  intros Hd Hrec. induction elems as [|e elems IH]; intros combs h Hok.
  - exists h, combs. split; [reflexivity|]. split; [assumption | discriminate].
  - cbn [combination_loop].
    destruct (store_keeps_order _ bl d e h combs Hd Hok) as (h1 & -> & Hlen1 & Hok1).
    simpl.
    destruct (decide (d + 1 < length slices)) as [Hdeep | Hlast].
    + destruct (Hrec Hdeep) as (b & Hlevel).
      destruct (Hlevel combs h1 Hok1) as (h2 & combs2 & -> & Hok2 & _). simpl.
      destruct (IH combs2 h2 Hok2) as (h3 & combs3 & Hrun & Hok3 & _).
      exists h3, combs3. split; [exact Hrun|]. split; [exact Hok3 | discriminate].
    + pose proof (copy_keeps_order _ bl h1 combs Hok1) as Hok2.
      destruct (IH _ _ Hok2) as (h3 & combs3 & Hrun & Hok3 & _).
      exists h3, combs3. split; [exact Hrun|]. split; [exact Hok3 | discriminate].
Qed.

Lemma combination_safe (fuel : nat) :
  forall d slice,
    length slices - d <= fuel -> slices !! d = Some slice ->
    level_safe (length slices) bl (is_Slice slice)
      (fun combs h => combination fuel bl combs d slices h).
Proof.
  induction fuel as [|fuel IH]; intros d slice Hfuel Hslice;
    pose proof (lookup_lt_Some _ _ _ Hslice) as Hd; [lia|].
  intros combs h Hok. rewrite combination_step, (index_inside _ _ _ Hslice). simpl.
  destruct (is_Slice slice) eqn:Hkind; simpl.
  - apply (combination_loop_safe (combination fuel) d Hd); [|assumption].
    intros Hdeep. destruct (lookup_lt_is_Some_2 slices (d + 1) Hdeep) as [next Hnext].
    exists (is_Slice next). apply IH; [lia | assumption].
  - exists h, combs. split; [reflexivity|]. split; [assumption|]. intros _. split; reflexivity.
Qed.
End any_arguments.

(** X20.  With one or more arguments of any kind [Combination] returns
    and does not panic.  It returns [NotSliceErr], and no combination,
    exactly when the first argument is not a slice; the arguments behind
    it never make an error.  Every combination returned has one position
    for every argument. *)
Theorem Combination_reports_the_first_argument_only (x : value) (rest : list value) :
  exists res,
    Combination (x :: rest) =
      Ret (res, if is_Slice x then None else Some NotSliceErr) /\
    (is_Slice x = false -> res = []) /\
    Forall (fun c => exists t, c = VSlice t /\ length t = S (length rest)) res.
Proof.
  unfold Combination, Combination_store, make. cbn [length app].
  destruct (combination_safe (x :: rest) 0 (S (S (length rest))) 0 x
              ltac:(simpl; lia) eq_refl [] [replicate (S (length rest)) VNil])
    as (h' & combs' & Hrun & (Hcells & _ & Hcombs) & Hsame).
  { split; [|split].
    - constructor; [apply length_replicate | constructor].
    - simpl. lia.
    - constructor. }
  cbn [length] in Hrun. rewrite Hrun. simpl.
  eexists. split; [reflexivity|]. split.
  - intros Hkind. destruct (Hsame Hkind) as [_ ->]. reflexivity.
  - apply Forall_fmap. eapply Forall_impl; [exact Hcombs|]. simpl.
    intros c Hc. exists (cells h' c). split; [reflexivity|].
    destruct (lookup_lt_is_Some_2 h' c Hc) as [t Ht]. unfold cells.
    rewrite (list_lookup_total_correct h' c t Ht).
    rewrite Forall_lookup in Hcells. apply (Hcells c t Ht).
Qed.

End utils_more.

(** ** The packages on small inputs *)

Module examples.
Import arraylist utils spec.

Example Add_then_Get :
  let a := Add New (ints [1; 2; 3])%Z in
  (Size a, Get a 0, Get a 2) = (3%Z, Ret (VInt 1, None), Ret (VInt 3, None)).
Proof. reflexivity. Qed.

Example AddAt_middle :
  AddAt {| slice := ints [1; 2; 3]%Z |} 1 [VInt 99]
  = Ret ({| slice := ints [1; 99; 2; 3]%Z |}, None).
Proof. reflexivity. Qed.

Example RemoveAt_middle :
  RemoveAt {| slice := ints [1; 99; 2; 3]%Z |} 1
  = Ret ({| slice := ints [1; 2; 3]%Z |}, None).
Proof. reflexivity. Qed.

Example Remove_keeps_later_duplicate :
  Remove {| slice := ints [1; 2; 3; 2]%Z |} (VInt 2)
  = Ret ({| slice := ints [1; 3; 2]%Z |}, None).
Proof. reflexivity. Qed.

Example Remove_absent_slice :
  Remove {| slice := ints [1; 2]%Z |} (VSlice [VInt 2; VString "a"])
  = Ret ({| slice := ints [1; 2]%Z |},
         Some (errors_New "[2 a] element was not found in this list.")).
Proof. reflexivity. Qed.

Example AddAt_negative :
  AddAt {| slice := ints [1; 2; 3]%Z |} (-1) [VInt 99]
  = Ret ({| slice := ints [1; 2; 3]%Z |},
         Some (errors_New "Index -1 is out of range from a list size of 3")).
Proof. reflexivity. Qed.

Example IndexOf_and_LastIndexOf :
  let a := {| slice := ints [1; 2; 3; 2]%Z |} in
  (IndexOf a (VInt 2), LastIndexOf a (VInt 2), IndexOf a (VInt 7), LastIndexOf a (VInt 7))
  = (1%Z, Ret 3%Z, (-1)%Z, Ret (-1)%Z).
Proof. reflexivity. Qed.

Example Combination_two_by_two :
  Combination [VSlice (ints [1; 2]%Z); VSlice [VString "a"; VString "b"]]
  = Ret ([VSlice [VInt 1; VString "a"]; VSlice [VInt 1; VString "b"];
          VSlice [VInt 2; VString "a"]; VSlice [VInt 2; VString "b"]], None).
Proof. reflexivity. Qed.

Example Combination_first_not_a_slice :
  Combination [VInt 5; VSlice (ints [1]%Z)] = Ret ([], Some NotSliceErr).
Proof. reflexivity. Qed.

Example Map_and_Select :
  (Map (VSlice (ints [1; 2; 3]%Z)) (Some (fun v => match v with VInt n => VInt (2 * n) | _ => v end)),
   Map (VSlice (ints [1]%Z)) None,
   Select (VSlice (ints [1; 2; 3; 4]%Z))
          (Some (fun v => match v with VInt n => Z.even n | _ => false end)))
  = ((ints [2; 4; 6]%Z, None), ([], Some NilMapFuncErr), (ints [2; 4]%Z, None)).
Proof. reflexivity. Qed.

End examples.
